(** * AppNotificationBuilder: the Button and Text builders

    A shallow embedding of
    [dev/AppNotifications/AppNotificationBuilder/Button.cpp] and of the
    class declared in [dev/AppNotifications/AppNotificationBuilder/Text.h].

    The builders are C++/WinRT runtime classes: every method runs on a
    receiver [this], assigns to its members and returns [*this], a
    reference to the receiver.  Objects therefore live in a store indexed
    by references, and a method is a computation in a state monad over
    that store. *)

From Stdlib Require Import Bool List Arith Ascii String Lia Permutation.
Import ListNotations.
Open Scope string_scope.

(** ** Strings *)

(** [winrt::hstring]: an immutable sequence of code units, here the code
    units of [string].  [empty()] is the test against the string of length
    zero, and [+] is [append]. *)
Definition hstring : Type := string.

Definition empty (s : hstring) : bool :=
  match s with
  | EmptyString => true
  | String _ _ => false
  end.

(** The double-quote code unit, used by the raw literals of [GetXml]. *)
Definition dq : ascii := ascii_of_nat 34.
Definition dquote : hstring := String dq EmptyString.

(** [contains pat s]: [pat] occurs in [s] as a contiguous substring. *)
Fixpoint contains (pat s : hstring) : bool :=
  prefix pat s ||
  match s with
  | EmptyString => false
  | String _ s' => contains pat s'
  end.

(** The concatenation of a list of strings, with nothing in between. *)
Definition concat_all (l : list hstring) : hstring :=
  fold_right append EmptyString l.

(** [mentions c s]: the code unit [c] occurs in [s]. *)
Fixpoint mentions (c : ascii) (s : hstring) : bool :=
  match s with
  | EmptyString => false
  | String a s' => Ascii.eqb a c || mentions c s'
  end.

(** ** The store of objects and the method monad *)

(** References to objects, and a store that holds one object of the
    class [T] behind every reference. *)
Definition ref : Type := nat.

Definition store (T : Type) : Type := ref -> T.

Definition upd {T : Type} (h : store T) (r : ref) (o : T) : store T :=
  fun r' => if Nat.eqb r' r then o else h r'.

Definition M (S A : Type) : Type := S -> A * S.

Definition ret {S A : Type} (a : A) : M S A := fun s => (a, s).

Definition bind {S A B : Type} (m : M S A) (k : A -> M S B) : M S B :=
  fun s => let (a, s') := m s in k a s'.

Notation "x <- m ;; k" := (bind m (fun x => k))
  (at level 61, m at next level, right associativity).
Notation "m ;; k" := (bind m (fun _ => k))
  (at level 61, right associativity).

(** Reading the receiver, and assigning to (a member of) the receiver. *)
Definition load {T : Type} (this : ref) : M (store T) T :=
  fun h => (h this, h).

Definition assign {T : Type} (this : ref) (f : T -> T) : M (store T) unit :=
  fun h => (tt, upd h this (f (h this))).

(** What a computation returns from a store, and the store it leaves. *)
Definition result_of {S A : Type} (m : M S A) (s : S) : A := fst (m s).
Definition store_after {S A : Type} (m : M S A) (s : S) : S := snd (m s).

(** ** Platform types used by the builders *)

(** [Windows::Foundation::Uri].  The builder only ever calls [ToString] on
    it, so a Uri is represented by the string that [ToString] returns.
    A Uri member or argument is a nullable reference: [option Uri]. *)
Record Uri : Type := MkUri { ToString : hstring }.

(** Modelled from the spec: the enumeration [ButtonStyle], declared in the
    IDL of the component, which is not among the sources.  The spec gives
    its values as Default, Success and Critical. *)
Inductive ButtonStyle : Type := Default | Success | Critical.

Definition ButtonStyle_eqb (a b : ButtonStyle) : bool :=
  match a, b with
  | Default, Default | Success, Success | Critical, Critical => true
  | _, _ => false
  end.

(** Modelled from the spec: the type of [m_arguments] is declared in
    Button.h, which is not among the sources.  The spec describes it as an
    ordered mapping from strings to strings with unique keys, iterated in
    insertion order, whose [Insert] inserts or overwrites: the value of a
    key that is already present is replaced and the key keeps the position
    of its first insertion. *)
Module ArgMap.

Definition t : Type := list (hstring * hstring).

Definition Key (pair : hstring * hstring) : hstring := fst pair.
Definition Value (pair : hstring * hstring) : hstring := snd pair.

Definition empty_map : t := [].

Fixpoint Insert (key value : hstring) (m : t) : t :=
  match m with
  | [] => [(key, value)]
  | (k, v) :: m' =>
      if String.eqb k key then (k, value) :: m'
      else (k, v) :: Insert key value m'
  end.

Fixpoint Lookup (key : hstring) (m : t) : option hstring :=
  match m with
  | [] => None
  | (k, v) :: m' => if String.eqb k key then Some v else Lookup key m'
  end.

Definition keys (m : t) : list hstring := map Key m.

(** The pairs in iteration order (what a range-for over the map sees). *)
Definition pairs (m : t) : list (hstring * hstring) := m.

End ArgMap.

(** ** Button *)

Module Button.

(** The members of the class, as Button.cpp uses them. *)
Record t : Type := Mk {
  m_content : hstring;
  m_arguments : ArgMap.t;
  m_iconUri : option Uri;
  m_protocolUri : option Uri;
  m_toolTip : hstring;
  m_inputId : hstring;
  m_useContextMenuPlacement : bool;
  m_buttonStyle : ButtonStyle
}.

Definition heap : Type := store t.

(** Member assignments. *)
Definition set_arguments (a : ArgMap.t) (b : t) : t :=
  Mk (m_content b) a (m_iconUri b) (m_protocolUri b) (m_toolTip b)
     (m_inputId b) (m_useContextMenuPlacement b) (m_buttonStyle b).

Definition set_iconUri (u : option Uri) (b : t) : t :=
  Mk (m_content b) (m_arguments b) u (m_protocolUri b) (m_toolTip b)
     (m_inputId b) (m_useContextMenuPlacement b) (m_buttonStyle b).

Definition set_protocolUri (u : option Uri) (b : t) : t :=
  Mk (m_content b) (m_arguments b) (m_iconUri b) u (m_toolTip b)
     (m_inputId b) (m_useContextMenuPlacement b) (m_buttonStyle b).

Definition set_toolTip (s : hstring) (b : t) : t :=
  Mk (m_content b) (m_arguments b) (m_iconUri b) (m_protocolUri b) s
     (m_inputId b) (m_useContextMenuPlacement b) (m_buttonStyle b).

Definition set_inputId (s : hstring) (b : t) : t :=
  Mk (m_content b) (m_arguments b) (m_iconUri b) (m_protocolUri b)
     (m_toolTip b) s (m_useContextMenuPlacement b) (m_buttonStyle b).

Definition set_useContextMenuPlacement (f : bool) (b : t) : t :=
  Mk (m_content b) (m_arguments b) (m_iconUri b) (m_protocolUri b)
     (m_toolTip b) (m_inputId b) f (m_buttonStyle b).

Definition set_buttonStyle (s : ButtonStyle) (b : t) : t :=
  Mk (m_content b) (m_arguments b) (m_iconUri b) (m_protocolUri b)
     (m_toolTip b) (m_inputId b) (m_useContextMenuPlacement b) s.

(** Modelled from the spec: the default member initialisers are in
    Button.h, which is not among the sources.  The spec's data model
    gives them: no arguments, no URI, empty tool tip and input id, the
    placement flag false, the style Default. *)
Definition initial (content : hstring) : t :=
  Mk content ArgMap.empty_map None None EmptyString EmptyString false Default.

(** [Button::Button(hstring const& content) : m_content(content)]: the
    constructor initialises the object at [this]. *)
Definition Button (this : ref) (content : hstring) : M heap unit :=
  assign this (fun _ => initial content).

Definition AddArgument (this : ref) (key value : hstring) : M heap ref :=
  assign this
    (fun b => set_arguments (ArgMap.Insert key value (m_arguments b)) b) ;;
  ret this.

Definition SetIconUri (this : ref) (iconUri : option Uri) : M heap ref :=
  assign this (set_iconUri iconUri) ;;
  ret this.

Definition UseProtocolActivation (this : ref) (protocolUri : option Uri)
  : M heap ref :=
  assign this (set_protocolUri protocolUri) ;;
  ret this.

Definition SetToolTip (this : ref) (toolTip : hstring) : M heap ref :=
  assign this (set_toolTip toolTip) ;;
  ret this.

Definition SetInputId (this : ref) (inputId : hstring) : M heap ref :=
  assign this (set_inputId inputId) ;;
  ret this.

Definition UseContextMenuPlacement (this : ref) : M heap ref :=
  assign this (set_useContextMenuPlacement true) ;;
  ret this.

Definition SetButtonStyle (this : ref) (buttonStyle : ButtonStyle)
  : M heap ref :=
  assign this (set_buttonStyle buttonStyle) ;;
  ret this.

(** The raw string literals of [GetXml]. *)
Definition lit_placement : hstring :=
  " placement=" ++ dquote ++ "contextMenu" ++ dquote.
Definition lit_protocol : hstring :=
  " activationType=" ++ dquote ++ "protocol" ++ dquote
    ++ " protocolActivationTargetApplicationPfn=".
Definition lit_success : hstring :=
  " hint-buttonStyle=" ++ dquote ++ "success" ++ dquote.
Definition lit_critical : hstring :=
  " hint-buttonStyle=" ++ dquote ++ "critical" ++ dquote.

(** The body of [GetXml] on the members it reads: the local [xml] is
    reassigned statement by statement, each [+] associating to the
    left as in the source.  The second test of the style is the
    source's: it compares with [Success] again. *)
Definition xml_of (b : t) : hstring :=
  let xml := ("<action content=" ++ m_content b) ++ " arguments=" in
  let xml :=
    fold_left
      (fun xml pair =>
         (((xml ++ ArgMap.Key pair) ++ "&") ++ ArgMap.Value pair) ++ ";")
      (ArgMap.pairs (m_arguments b)) xml in
  let xml :=
    if m_useContextMenuPlacement b then xml ++ lit_placement else xml in
  let xml :=
    match m_iconUri b with
    | Some iconUri => (xml ++ " imageUri=") ++ ToString iconUri
    | None => xml
    end in
  let xml :=
    match m_protocolUri b with
    | Some protocolUri => (xml ++ lit_protocol) ++ ToString protocolUri
    | None => xml
    end in
  let xml :=
    if negb (empty (m_inputId b))
    then (xml ++ " hint-inputId=") ++ m_inputId b else xml in
  let xml :=
    if ButtonStyle_eqb (m_buttonStyle b) Success
    then xml ++ lit_success
    else if ButtonStyle_eqb (m_buttonStyle b) Success
    then xml ++ lit_critical
    else xml in
  let xml :=
    if negb (empty (m_toolTip b))
    then (xml ++ " hint-toolTip=") ++ m_toolTip b else xml in
  let xml := xml ++ " />" in
  xml.

Definition GetXml (this : ref) : M heap hstring :=
  b <- load this ;;
  ret (xml_of b).

End Button.

(** Calls of the Button methods, for traces of calls on a store. *)
Module ButtonCalls.
Import Button.

Inductive setter : Type :=
| CAddArgument (key value : hstring)
| CSetIconUri (iconUri : option Uri)
| CUseProtocolActivation (protocolUri : option Uri)
| CSetToolTip (toolTip : hstring)
| CSetInputId (inputId : hstring)
| CUseContextMenuPlacement
| CSetButtonStyle (buttonStyle : ButtonStyle).

Inductive call : Type :=
| CSet (s : setter)
| CGetXml.

(** What a call hands back: the builder reference of a setter, or the
    string of [GetXml]. *)
Inductive answer : Type :=
| Builder (r : ref)
| Xml (s : hstring).

Definition invoke_setter (this : ref) (s : setter) : M heap ref :=
  match s with
  | CAddArgument key value => AddArgument this key value
  | CSetIconUri iconUri => SetIconUri this iconUri
  | CUseProtocolActivation protocolUri => UseProtocolActivation this protocolUri
  | CSetToolTip toolTip => SetToolTip this toolTip
  | CSetInputId inputId => SetInputId this inputId
  | CUseContextMenuPlacement => UseContextMenuPlacement this
  | CSetButtonStyle buttonStyle => SetButtonStyle this buttonStyle
  end.

Definition invoke (this : ref) (c : call) : M heap answer :=
  match c with
  | CSet s => r <- invoke_setter this s ;; ret (Builder r)
  | CGetXml => x <- GetXml this ;; ret (Xml x)
  end.

(** A trace: calls on arbitrary receivers, run one after the other. *)
Fixpoint run (tr : list (ref * call)) : M heap (list answer) :=
  match tr with
  | [] => ret []
  | (this, c) :: tr' =>
      a <- invoke this c ;;
      rest <- run tr' ;;
      ret (a :: rest)
  end.

(** No call of the trace is a setter call on the receiver [this]. *)
Definition no_setter_on (this : ref) (tr : list (ref * call)) : bool :=
  forallb
    (fun rc =>
       match snd rc with
       | CSet _ => negb (Nat.eqb (fst rc) this)
       | CGetXml => true
       end)
    tr.

(** The member a setter assigns, as a function on the receiver. *)
Definition effect (s : setter) (b : t) : t :=
  match s with
  | CAddArgument key value =>
      set_arguments (ArgMap.Insert key value (m_arguments b)) b
  | CSetIconUri iconUri => set_iconUri iconUri b
  | CUseProtocolActivation protocolUri => set_protocolUri protocolUri b
  | CSetToolTip toolTip => set_toolTip toolTip b
  | CSetInputId inputId => set_inputId inputId b
  | CUseContextMenuPlacement => set_useContextMenuPlacement true b
  | CSetButtonStyle buttonStyle => set_buttonStyle buttonStyle b
  end.

End ButtonCalls.

(** The layout of the [<action>] element in the words of the
    specification: the fixed opening, then one segment per attribute,
    each segment empty when its condition fails. *)
Module ButtonSpec.
Import Button.

(** One pair of the mapping, as the pattern [key&value;]. *)
Definition argument (pair : hstring * hstring) : hstring :=
  ArgMap.Key pair ++ "&" ++ ArgMap.Value pair ++ ";".

(** The patterns of all pairs in iteration order, nothing in between. *)
Definition arguments_value (m : ArgMap.t) : hstring :=
  concat_all (map argument (ArgMap.pairs m)).

Definition placement_attr (b : t) : hstring :=
  if m_useContextMenuPlacement b then lit_placement else EmptyString.

Definition imageUri_attr (b : t) : hstring :=
  match m_iconUri b with
  | Some u => " imageUri=" ++ ToString u
  | None => EmptyString
  end.

Definition protocol_attr (b : t) : hstring :=
  match m_protocolUri b with
  | Some u => lit_protocol ++ ToString u
  | None => EmptyString
  end.

Definition inputId_attr (b : t) : hstring :=
  if empty (m_inputId b) then EmptyString
  else " hint-inputId=" ++ m_inputId b.

Definition style_attr (b : t) : hstring :=
  match m_buttonStyle b with
  | Success => lit_success
  | Default | Critical => EmptyString
  end.

Definition toolTip_attr (b : t) : hstring :=
  if empty (m_toolTip b) then EmptyString
  else " hint-toolTip=" ++ m_toolTip b.

(** Everything that follows the value of [arguments=]. *)
Definition after_arguments (b : t) : hstring :=
  placement_attr b
    ++ imageUri_attr b
    ++ protocol_attr b
    ++ inputId_attr b
    ++ style_attr b
    ++ toolTip_attr b
    ++ " />".

Definition action_element (b : t) : hstring :=
  "<action content=" ++ m_content b
    ++ " arguments=" ++ arguments_value (m_arguments b)
    ++ after_arguments b.

(** The strings a caller hands to the builder and [GetXml] copies into
    its output. *)
Definition uri_text (u : option Uri) : list hstring :=
  match u with
  | Some u => [ToString u]
  | None => []
  end.

Definition caller_strings (b : t) : list hstring :=
  (m_content b
     :: flat_map (fun pair => [ArgMap.Key pair; ArgMap.Value pair])
          (ArgMap.pairs (m_arguments b))
     ++ uri_text (m_iconUri b)
     ++ uri_text (m_protocolUri b)
     ++ [m_inputId b; m_toolTip b])%list.

(** Some caller-supplied string already carries the text [pat]. *)
Definition supplied (pat : hstring) (b : t) : bool :=
  existsb (contains pat) (caller_strings b).

Definition style_success : hstring :=
  "hint-buttonStyle=" ++ dquote ++ "success" ++ dquote.
Definition style_critical : hstring :=
  "hint-buttonStyle=" ++ dquote ++ "critical" ++ dquote.

End ButtonSpec.

(** ** Text *)

Module Text.

(** The members declared in Text.h. *)
Record t : Type := Mk {
  m_content : hstring;
  m_language : hstring;
  m_useCallScenarioAlign : bool;
  m_useAttributionText : bool
}.

Definition heap : Type := store t.

Definition set_language (s : hstring) (x : t) : t :=
  Mk (m_content x) s (m_useCallScenarioAlign x) (m_useAttributionText x).

Definition set_useCallScenarioAlign (f : bool) (x : t) : t :=
  Mk (m_content x) (m_language x) f (m_useAttributionText x).

Definition set_useAttributionText (f : bool) (x : t) : t :=
  Mk (m_content x) (m_language x) (m_useCallScenarioAlign x) f.

(** Text.h initialises the two flags with [{}]; an [hstring] starts
    empty. *)
Definition initial (content : hstring) : t :=
  Mk content EmptyString false false.

Section Methods.

(** The literals of the text element are in Text.cpp, which is not
    among the sources: the rendering of the members is a parameter. *)
Variable render : t -> hstring.

(** Modelled from the spec: the body of the constructor is in
    Text.cpp, which is not among the sources.  The spec says that the
    content is set at construction; the other members start as Text.h
    initialises them. *)
Definition Text (this : ref) (content : hstring) : M heap unit :=
  assign this (fun _ => initial content).

(** Modelled from the spec: the body is in Text.cpp.  The spec says
    that [SetLanguage] overwrites the language and returns the same
    builder. *)
Definition SetLanguage (this : ref) (language : hstring) : M heap ref :=
  assign this (set_language language) ;;
  ret this.

(** Modelled from the spec: the body is in Text.cpp.  The spec says
    that [UseCallScenarioAlign] sets its flag true and returns the
    same builder. *)
Definition UseCallScenarioAlign (this : ref) : M heap ref :=
  assign this (set_useCallScenarioAlign true) ;;
  ret this.

(** Modelled from the spec: the body is in Text.cpp.  The spec says
    that [UseAttributionText] sets its flag true and returns the same
    builder. *)
Definition UseAttributionText (this : ref) : M heap ref :=
  assign this (set_useAttributionText true) ;;
  ret this.

(** Modelled from the spec: the body is in Text.cpp.  The spec says
    that [GetXml] is a pure read of the members that produces the
    text element. *)
Definition GetXml (this : ref) : M heap hstring :=
  x <- load this ;;
  ret (render x).

Inductive setter : Type :=
| CSetLanguage (language : hstring)
| CUseCallScenarioAlign
| CUseAttributionText.

Inductive call : Type :=
| CSet (s : setter)
| CGetXml.

Inductive answer : Type :=
| Builder (r : ref)
| Xml (s : hstring).

Definition invoke_setter (this : ref) (s : setter) : M heap ref :=
  match s with
  | CSetLanguage language => SetLanguage this language
  | CUseCallScenarioAlign => UseCallScenarioAlign this
  | CUseAttributionText => UseAttributionText this
  end.

Definition invoke (this : ref) (c : call) : M heap answer :=
  match c with
  | CSet s => r <- invoke_setter this s ;; ret (Builder r)
  | CGetXml => x <- GetXml this ;; ret (Xml x)
  end.

Fixpoint run (tr : list (ref * call)) : M heap (list answer) :=
  match tr with
  | [] => ret []
  | (this, c) :: tr' =>
      a <- invoke this c ;;
      rest <- run tr' ;;
      ret (a :: rest)
  end.

Definition effect (s : setter) (x : t) : t :=
  match s with
  | CSetLanguage language => set_language language x
  | CUseCallScenarioAlign => set_useCallScenarioAlign true x
  | CUseAttributionText => set_useAttributionText true x
  end.

End Methods.

End Text.

(** ** Chains of calls and the members they assign *)

(** Adding the pairs of a list one after the other, each call on the
    builder that the previous call returned. *)
Fixpoint add_arguments (this : ref) (kvs : list (hstring * hstring))
  : M Button.heap ref :=
  match kvs with
  | [] => ret this
  | (k, v) :: kvs' =>
      r <- Button.AddArgument this k v ;;
      add_arguments r kvs'
  end.

(** The members of a Button, and the one that each setter assigns. *)
Inductive member : Type :=
| MContent | MArguments | MIconUri | MProtocolUri
| MToolTip | MInputId | MUseContextMenuPlacement | MButtonStyle.

Definition assigned (s : ButtonCalls.setter) : member :=
  match s with
  | ButtonCalls.CAddArgument _ _ => MArguments
  | ButtonCalls.CSetIconUri _ => MIconUri
  | ButtonCalls.CUseProtocolActivation _ => MProtocolUri
  | ButtonCalls.CSetToolTip _ => MToolTip
  | ButtonCalls.CSetInputId _ => MInputId
  | ButtonCalls.CUseContextMenuPlacement => MUseContextMenuPlacement
  | ButtonCalls.CSetButtonStyle _ => MButtonStyle
  end.

Definition same_member (f : member) (b b' : Button.t) : Prop :=
  match f with
  | MContent => Button.m_content b = Button.m_content b'
  | MArguments => Button.m_arguments b = Button.m_arguments b'
  | MIconUri => Button.m_iconUri b = Button.m_iconUri b'
  | MProtocolUri => Button.m_protocolUri b = Button.m_protocolUri b'
  | MToolTip => Button.m_toolTip b = Button.m_toolTip b'
  | MInputId => Button.m_inputId b = Button.m_inputId b'
  | MUseContextMenuPlacement =>
      Button.m_useContextMenuPlacement b = Button.m_useContextMenuPlacement b'
  | MButtonStyle => Button.m_buttonStyle b = Button.m_buttonStyle b'
  end.

(** ** The element as a sequence of chunks *)

(** The element cut into chunks: a separator code unit, the rest of a
    literal of [GetXml] and the caller's string copied after it. *)
Record chunk : Type := Chunk {
  sep : ascii;
  lit : hstring;
  txt : hstring
}.

Definition render_chunk (ch : chunk) : hstring :=
  String (sep ch) (lit ch ++ txt ch).

Definition render (chs : list chunk) : hstring :=
  concat_all (map render_chunk chs).

(** No non-empty suffix of the literal [T] starts an occurrence of [P]
    that ends inside or after [T]. *)
Fixpoint no_overlap (P T : hstring) : bool :=
  match T with
  | EmptyString => true
  | String _ T' => negb (prefix T P) && negb (prefix P T) && no_overlap P T'
  end.

Definition clear_of (P : hstring) (ch : chunk) : bool :=
  negb (mentions (sep ch) P) && no_overlap P (lit ch).

Definition sp : ascii := ascii_of_nat 32.

Fixpoint argument_chunks (c : ascii) (T : hstring)
    (l : list (hstring * hstring)) : list chunk :=
  match l with
  | [] => [Chunk c T EmptyString]
  | kv :: l' =>
      Chunk c T (ArgMap.Key kv)
        :: Chunk (ascii_of_nat 38) EmptyString (ArgMap.Value kv)
        :: argument_chunks (ascii_of_nat 59) EmptyString l'
  end.

Definition tail_placement : hstring :=
  "placement=" ++ dquote ++ "contextMenu" ++ dquote.
Definition tail_activation : hstring :=
  "activationType=" ++ dquote ++ "protocol" ++ dquote.

Definition attribute_chunks (b : Button.t) : list chunk :=
  ((if Button.m_useContextMenuPlacement b
    then [Chunk sp tail_placement EmptyString]
    else [])
   ++ match Button.m_iconUri b with
      | Some u => [Chunk sp "imageUri=" (ToString u)]
      | None => []
      end
   ++ match Button.m_protocolUri b with
      | Some u =>
          [Chunk sp tail_activation EmptyString;
           Chunk sp "protocolActivationTargetApplicationPfn=" (ToString u)]
      | None => []
      end
   ++ (if empty (Button.m_inputId b) then []
       else [Chunk sp "hint-inputId=" (Button.m_inputId b)])
   ++ match Button.m_buttonStyle b with
      | Success =>
          [Chunk sp ButtonSpec.style_success EmptyString]
      | Default | Critical => []
      end
   ++ (if empty (Button.m_toolTip b) then []
       else [Chunk sp "hint-toolTip=" (Button.m_toolTip b)])
   ++ [Chunk sp "/>" EmptyString])%list.

Definition element_chunks (b : Button.t) : list chunk :=
  (Chunk sp "content=" (Button.m_content b)
     :: argument_chunks sp "arguments=" (ArgMap.pairs (Button.m_arguments b))
     ++ attribute_chunks b)%list.

(** The literals that [GetXml] writes whatever the style is. *)
Definition fixed_chunks : list chunk :=
  [ Chunk sp "content=" EmptyString;
    Chunk sp "arguments=" EmptyString;
    Chunk (ascii_of_nat 38) EmptyString EmptyString;
    Chunk (ascii_of_nat 59) EmptyString EmptyString;
    Chunk sp tail_placement EmptyString;
    Chunk sp "imageUri=" EmptyString;
    Chunk sp tail_activation EmptyString;
    Chunk sp "protocolActivationTargetApplicationPfn=" EmptyString;
    Chunk sp "hint-inputId=" EmptyString;
    Chunk sp "hint-toolTip=" EmptyString;
    Chunk sp "/>" EmptyString ].

(** ** Fluent chains and the format of the arguments *)

(** A fluent chain of setter calls: each call is made on the builder that
    the previous call returned. *)
Fixpoint chain (this : ref) (ss : list ButtonCalls.setter)
  : M Button.heap ref :=
  match ss with
  | [] => ret this
  | s :: ss' =>
      r <- ButtonCalls.invoke_setter this s ;;
      chain r ss'
  end.

(** The two delimiters that the loop of [GetXml] writes around a pair. *)
Definition amp : ascii := ascii_of_nat 38.
Definition semi : ascii := ascii_of_nat 59.

(** No key holds the delimiter [&] and no value holds the delimiter [;]. *)
Definition delimiter_free (l : list (hstring * hstring)) : bool :=
  forallb
    (fun kv =>
       negb (mentions amp (ArgMap.Key kv))
       && negb (mentions semi (ArgMap.Value kv)))
    l.

(** ** Serialising, assigning the style, serialising again *)

(** [GetXml], then [SetButtonStyle] on the same builder, then [GetXml] on
    the builder that the setter returned: the two strings. *)
Definition restyle_between (this : ref) (buttonStyle : ButtonStyle)
  : M Button.heap (hstring * hstring) :=
  x1 <- Button.GetXml this ;;
  r <- Button.SetButtonStyle this buttonStyle ;;
  x2 <- Button.GetXml r ;;
  ret (x1, x2).

(** * Properties *)

(** ** Strings *)

Lemma append_assoc (a b c : hstring) : (a ++ b) ++ c = a ++ b ++ c.
Proof.
  induction a as [|x a IH]; simpl; [reflexivity | now rewrite IH].
Qed.

Lemma append_empty_r (a : hstring) : a ++ EmptyString = a.
Proof.
  induction a as [|x a IH]; simpl; [reflexivity | now rewrite IH].
Qed.

Lemma empty_true (s : hstring) : empty s = true <-> s = EmptyString.
Proof.
  destruct s; simpl; split; congruence.
Qed.

Lemma concat_all_app (l1 l2 : list hstring) :
  concat_all (l1 ++ l2)%list = concat_all l1 ++ concat_all l2.
Proof.
  induction l1 as [|x l1 IH]; simpl; [reflexivity |].
  now rewrite IH, append_assoc.
Qed.

(** ** The method monad *)

Lemma upd_same {T : Type} (h : store T) (r : ref) (o : T) : upd h r o r = o.
Proof.
  unfold upd. now rewrite Nat.eqb_refl.
Qed.

Lemma upd_other {T : Type} (h : store T) (r r' : ref) (o : T) :
  r' <> r -> upd h r o r' = h r'.
Proof.
  intros Hne. unfold upd.
  destruct (Nat.eqb_spec r' r); [contradiction | reflexivity].
Qed.

(** ** The argument mapping *)

Lemma Insert_fresh (k v : hstring) (m : ArgMap.t) :
  ~ In k (ArgMap.keys m) -> ArgMap.Insert k v m = (m ++ [(k, v)])%list.
Proof.
  induction m as [|[k0 v0] m IH]; simpl; intros Hn; [reflexivity |].
  destruct (String.eqb_spec k0 k) as [->|Hne].
  - exfalso. apply Hn. now left.
  - rewrite IH; [reflexivity |]. intros Hin. apply Hn. now right.
Qed.

Lemma Insert_present (k v : hstring) (m : ArgMap.t) :
  In k (ArgMap.keys m) ->
  exists l1 v0 l2,
    m = (l1 ++ (k, v0) :: l2)%list /\
    ~ In k (ArgMap.keys l1) /\
    ArgMap.Insert k v m = (l1 ++ (k, v) :: l2)%list.
Proof.
  induction m as [|[k0 v0] m IH]; simpl; intros Hin; [contradiction |].
  destruct (String.eqb_spec k0 k) as [->|Hne].
  - exists [], v0, m. simpl. auto.
  - destruct Hin as [Heq|Hin]; [contradiction |].
    destruct (IH Hin) as (l1 & w & l2 & Hm & Hl1 & Hins).
    exists ((k0, v0) :: l1)%list, w, l2. simpl. rewrite Hins, <- Hm.
    repeat split; try reflexivity.
    intros [Heq|Hin']; [contradiction | now apply Hl1].
Qed.

Lemma Lookup_Insert (k v : hstring) (m : ArgMap.t) :
  ArgMap.Lookup k (ArgMap.Insert k v m) = Some v.
Proof.
  induction m as [|[k0 v0] m IH]; simpl.
  - now rewrite String.eqb_refl.
  - destruct (String.eqb_spec k0 k) as [->|Hne]; simpl.
    + now rewrite String.eqb_refl.
    + destruct (String.eqb_spec k0 k); [contradiction | exact IH].
Qed.

Lemma Lookup_Insert_other (k k' v : hstring) (m : ArgMap.t) :
  k' <> k ->
  ArgMap.Lookup k' (ArgMap.Insert k v m) = ArgMap.Lookup k' m.
Proof.
  intros Hne. induction m as [|[k0 v0] m IH]; simpl.
  - destruct (String.eqb_spec k k'); [congruence | reflexivity].
  - destruct (String.eqb_spec k0 k) as [->|Hne0]; simpl.
    + destruct (String.eqb_spec k k'); [congruence | reflexivity].
    + now rewrite IH.
Qed.

Lemma keys_Insert_present (k v : hstring) (m : ArgMap.t) :
  In k (ArgMap.keys m) -> ArgMap.keys (ArgMap.Insert k v m) = ArgMap.keys m.
Proof.
  intros Hin. destruct (Insert_present k v m Hin) as (l1 & v0 & l2 & -> & _ & ->).
  unfold ArgMap.keys. now rewrite !map_app.
Qed.

(** ** The layout of the element *)

Lemma arguments_loop (l : list (hstring * hstring)) (xml : hstring) :
  fold_left
    (fun xml pair =>
       (((xml ++ ArgMap.Key pair) ++ "&") ++ ArgMap.Value pair) ++ ";")
    l xml
  = xml ++ concat_all (map ButtonSpec.argument l).
Proof.
  revert xml. induction l as [|pair l IH]; intros xml; simpl.
  - now rewrite append_empty_r.
  - rewrite IH. unfold ButtonSpec.argument. now rewrite !append_assoc.
Qed.

Lemma xml_of_layout (b : Button.t) :
  Button.xml_of b = ButtonSpec.action_element b.
Proof.
  unfold Button.xml_of, ButtonSpec.action_element, ButtonSpec.after_arguments,
    ButtonSpec.arguments_value, ButtonSpec.placement_attr,
    ButtonSpec.imageUri_attr, ButtonSpec.protocol_attr,
    ButtonSpec.inputId_attr, ButtonSpec.style_attr, ButtonSpec.toolTip_attr.
  rewrite arguments_loop.
  destruct b as [c a i p t n f s]; cbn [Button.m_content Button.m_arguments
    Button.m_iconUri Button.m_protocolUri Button.m_toolTip Button.m_inputId
    Button.m_useContextMenuPlacement Button.m_buttonStyle].
  destruct f, i as [i|], p as [p|], (empty n), s, (empty t);
    cbn [negb ButtonStyle_eqb];
    rewrite ?append_assoc; cbn [append]; rewrite ?append_empty_r; reflexivity.
Qed.

(** ** What a call does to the store *)

Lemma invoke_setter_spec (this : ref) (s : ButtonCalls.setter) (h : Button.heap) :
  ButtonCalls.invoke_setter this s h
  = (this, upd h this (ButtonCalls.effect s (h this))).
Proof.
  destruct s; reflexivity.
Qed.

Lemma GetXml_spec (this : ref) (h : Button.heap) :
  Button.GetXml this h = (Button.xml_of (h this), h).
Proof.
  reflexivity.
Qed.

Lemma effect_content (s : ButtonCalls.setter) (b : Button.t) :
  Button.m_content (ButtonCalls.effect s b) = Button.m_content b.
Proof.
  destruct s; reflexivity.
Qed.

Lemma invoke_content (this r : ref) (c : ButtonCalls.call) (h : Button.heap) :
  Button.m_content (store_after (ButtonCalls.invoke this c) h r)
  = Button.m_content (h r).
Proof.
  destruct c as [s|]; unfold store_after, ButtonCalls.invoke, bind.
  - rewrite invoke_setter_spec. simpl. unfold upd.
    destruct (Nat.eqb_spec r this) as [->|_]; [apply effect_content | reflexivity].
  - rewrite GetXml_spec. reflexivity.
Qed.

Lemma run_content (tr : list (ref * ButtonCalls.call)) (r : ref) (h : Button.heap) :
  Button.m_content (store_after (ButtonCalls.run tr) h r)
  = Button.m_content (h r).
Proof.
  revert h. induction tr as [|[this c] tr IH]; intros h; [reflexivity |].
  unfold store_after in *. simpl. unfold bind at 1.
  pose proof (invoke_content this r c h) as Hc. unfold store_after in Hc.
  destruct (ButtonCalls.invoke this c h) as [a h1]. simpl in Hc.
  unfold bind. specialize (IH h1).
  destruct (ButtonCalls.run tr h1) as [rest h2]. simpl in *. congruence.
Qed.

Lemma invoke_no_setter (this r : ref) (c : ButtonCalls.call) (h : Button.heap) :
  ButtonCalls.no_setter_on this [(r, c)] = true ->
  store_after (ButtonCalls.invoke r c) h this = h this.
Proof.
  unfold ButtonCalls.no_setter_on. cbn [forallb fst snd].
  rewrite andb_true_r. intros Hq.
  destruct c as [s|]; unfold store_after, ButtonCalls.invoke, bind.
  - rewrite invoke_setter_spec. simpl. apply upd_other.
    apply negb_true_iff in Hq. intros ->. now rewrite Nat.eqb_refl in Hq.
  - reflexivity.
Qed.

Lemma run_no_setter (this : ref) (tr : list (ref * ButtonCalls.call))
    (h : Button.heap) :
  ButtonCalls.no_setter_on this tr = true ->
  store_after (ButtonCalls.run tr) h this = h this.
Proof.
  revert h. induction tr as [|[r c] tr IH]; intros h Hq; [reflexivity |].
  unfold ButtonCalls.no_setter_on in *. cbn [forallb] in Hq.
  apply andb_true_iff in Hq as [Hc Hq].
  pose proof (invoke_no_setter this r c h) as Hi.
  unfold ButtonCalls.no_setter_on in Hi. cbn [forallb] in Hi.
  rewrite andb_true_r in Hi. specialize (Hi Hc).
  unfold store_after in *. simpl. unfold bind at 1.
  destruct (ButtonCalls.invoke r c h) as [a h1]. simpl in Hi.
  unfold bind. specialize (IH h1 Hq).
  destruct (ButtonCalls.run tr h1) as [rest h2]. simpl in *. congruence.
Qed.

Section TextCalls.

Variable render : Text.t -> hstring.

Lemma text_invoke_setter_spec (this : ref) (s : Text.setter) (h : Text.heap) :
  Text.invoke_setter this s h = (this, upd h this (Text.effect s (h this))).
Proof.
  destruct s; reflexivity.
Qed.

Lemma text_invoke_content (this r : ref) (c : Text.call) (h : Text.heap) :
  Text.m_content (store_after (Text.invoke render this c) h r)
  = Text.m_content (h r).
Proof.
  destruct c as [s|]; unfold store_after, Text.invoke, bind.
  - rewrite text_invoke_setter_spec. simpl. unfold upd.
    destruct (Nat.eqb_spec r this) as [->|_]; [destruct s |]; reflexivity.
  - reflexivity.
Qed.

Lemma text_run_content (tr : list (ref * Text.call)) (r : ref) (h : Text.heap) :
  Text.m_content (store_after (Text.run render tr) h r) = Text.m_content (h r).
Proof.
  revert h. induction tr as [|[this c] tr IH]; intros h; [reflexivity |].
  unfold store_after in *. simpl. unfold bind at 1.
  pose proof (text_invoke_content this r c h) as Hc. unfold store_after in Hc.
  destruct (Text.invoke render this c h) as [a h1]. simpl in Hc.
  unfold bind. specialize (IH h1).
  destruct (Text.run render tr h1) as [rest h2]. simpl in *. congruence.
Qed.

End TextCalls.

(** ** The claims about serialisation *)

(** C1: for every Button state, the string returned by [GetXml] is the
    opening [<action content=], the content, [ arguments=] with its value,
    and then the attribute segments in the order placement, imageUri,
    protocol activation, hint-inputId, hint-buttonStyle, hint-toolTip,
    closed by [ />]; a segment is non-empty exactly when its condition
    holds (flag true, URI set, string non-empty, style Success). *)
Theorem GetXml_attribute_order (this : ref) (h : Button.heap) :
  let b := h this in
  result_of (Button.GetXml this) h
  = "<action content=" ++ Button.m_content b
      ++ " arguments=" ++ ButtonSpec.arguments_value (Button.m_arguments b)
      ++ ButtonSpec.placement_attr b
      ++ ButtonSpec.imageUri_attr b
      ++ ButtonSpec.protocol_attr b
      ++ ButtonSpec.inputId_attr b
      ++ ButtonSpec.style_attr b
      ++ ButtonSpec.toolTip_attr b
      ++ " />"
  /\ (ButtonSpec.placement_attr b <> EmptyString
      <-> Button.m_useContextMenuPlacement b = true)
  /\ (ButtonSpec.imageUri_attr b <> EmptyString
      <-> Button.m_iconUri b <> None)
  /\ (ButtonSpec.protocol_attr b <> EmptyString
      <-> Button.m_protocolUri b <> None)
  /\ (ButtonSpec.inputId_attr b <> EmptyString
      <-> Button.m_inputId b <> EmptyString)
  /\ (ButtonSpec.style_attr b <> EmptyString
      <-> Button.m_buttonStyle b = Success)
  /\ (ButtonSpec.toolTip_attr b <> EmptyString
      <-> Button.m_toolTip b <> EmptyString).
Proof.
  intros b. split; [apply xml_of_layout |].
  unfold ButtonSpec.placement_attr, ButtonSpec.imageUri_attr,
    ButtonSpec.protocol_attr, ButtonSpec.inputId_attr, ButtonSpec.style_attr,
    ButtonSpec.toolTip_attr.
  repeat split; intros H.
  - destruct (Button.m_useContextMenuPlacement b); congruence.
  - rewrite H. discriminate.
  - destruct (Button.m_iconUri b); congruence.
  - destruct (Button.m_iconUri b); [discriminate | congruence].
  - destruct (Button.m_protocolUri b); congruence.
  - destruct (Button.m_protocolUri b); [discriminate | congruence].
  - destruct (Button.m_inputId b); simpl in *; congruence.
  - destruct (Button.m_inputId b); simpl; [congruence | discriminate].
  - destruct (Button.m_buttonStyle b); congruence.
  - rewrite H. discriminate.
  - destruct (Button.m_toolTip b); simpl in *; congruence.
  - destruct (Button.m_toolTip b); simpl; [congruence | discriminate].
Qed.

Lemma set_arguments_same (b : Button.t) :
  Button.set_arguments (Button.m_arguments b) b = b.
Proof.
  now destruct b.
Qed.

Lemma add_arguments_spec (kvs : list (hstring * hstring)) (this : ref)
    (h : Button.heap) :
  result_of (add_arguments this kvs) h = this /\
  store_after (add_arguments this kvs) h this
  = Button.set_arguments
      (fold_left (fun m kv => ArgMap.Insert (fst kv) (snd kv) m) kvs
         (Button.m_arguments (h this)))
      (h this).
Proof.
  revert h. induction kvs as [|[k v] kvs IH]; intros h.
  - simpl. now rewrite set_arguments_same.
  - specialize (IH (upd h this
      (Button.set_arguments
         (ArgMap.Insert k v (Button.m_arguments (h this))) (h this)))).
    rewrite upd_same in IH. exact IH.
Qed.

Lemma Insert_all_fresh (kvs m : list (hstring * hstring)) :
  NoDup (ArgMap.keys (m ++ kvs)%list) ->
  fold_left (fun m kv => ArgMap.Insert (fst kv) (snd kv) m) kvs m
  = (m ++ kvs)%list.
Proof.
  revert m. induction kvs as [|[k v] kvs IH]; intros m Hnd; simpl.
  - now rewrite app_nil_r.
  - assert (Hfresh : ~ In k (ArgMap.keys m)).
    { unfold ArgMap.keys in *. rewrite map_app in Hnd. simpl in Hnd.
      apply NoDup_remove_2 in Hnd. intros Hin. apply Hnd.
      apply in_or_app. now left. }
    rewrite (Insert_fresh _ _ _ Hfresh), IH; rewrite <- app_assoc; auto.
Qed.

(** C3: the value that [GetXml] writes after [arguments=] is the
    concatenation of [key&value;] over the pairs of the mapping in
    iteration order, with nothing between successive pairs, and it is
    empty for the empty mapping; iteration order is insertion order: after
    pairs with distinct keys are added to a new Button the value lists
    them in the order of the calls. *)
Theorem GetXml_arguments_value (this : ref) (h : Button.heap) :
  let b := h this in
  (result_of (Button.GetXml this) h
   = "<action content=" ++ Button.m_content b ++ " arguments="
       ++ concat_all
            (map (fun pair => ArgMap.Key pair ++ "&" ++ ArgMap.Value pair ++ ";")
                 (ArgMap.pairs (Button.m_arguments b)))
       ++ ButtonSpec.after_arguments b)
  /\ (Button.m_arguments b = ArgMap.empty_map ->
      result_of (Button.GetXml this) h
      = "<action content=" ++ Button.m_content b ++ " arguments="
          ++ ButtonSpec.after_arguments b)
  /\ (forall content kvs,
        NoDup (map fst kvs) ->
        result_of
          (Button.Button this content ;;
           r <- add_arguments this kvs ;;
           Button.GetXml r) h
        = "<action content=" ++ content ++ " arguments="
            ++ concat_all (map (fun kv => fst kv ++ "&" ++ snd kv ++ ";") kvs)
            ++ " />").
Proof.
  intros b. split; [apply xml_of_layout | split].
  - intros He. unfold result_of. rewrite GetXml_spec. simpl.
    rewrite xml_of_layout. unfold ButtonSpec.action_element,
      ButtonSpec.arguments_value. fold b. rewrite He. reflexivity.
  - intros content kvs Hnd.
    unfold result_of, bind at 1. unfold Button.Button, assign.
    set (h0 := upd h this (Button.initial content)).
    destruct (add_arguments_spec kvs this h0) as [Hr Hm].
    unfold result_of, store_after in Hr, Hm. unfold bind.
    destruct (add_arguments this kvs h0) as [r h1]. simpl in Hr, Hm. subst r.
    rewrite GetXml_spec. simpl. rewrite xml_of_layout, Hm.
    unfold h0. rewrite upd_same. simpl Button.m_arguments.
    rewrite Insert_all_fresh by exact Hnd. reflexivity.
Qed.

Lemma GetXml_arguments_value_witness :
  result_of
    (Button.Button 0 "c" ;;
     r <- add_arguments 0 [("a", "1"); ("b", "2")] ;;
     Button.GetXml r) (fun _ => Button.initial EmptyString)
  = "<action content=c arguments=a&1;b&2; />".
Proof.
  apply (proj2 (proj2 (GetXml_arguments_value 0
                         (fun _ => Button.initial EmptyString)))
           "c" [("a", "1"); ("b", "2")]).
  simpl. repeat constructor; simpl; intuition discriminate.
Defined.

(** C4: the chain [Button("Accept").AddArgument("action","accept")
    .SetInputId("reply").GetXml()], each call made on the builder that the
    previous one returned, gives exactly
    [<action content=Accept arguments=action&accept; hint-inputId=reply />]. *)
Theorem GetXml_accept_reply (this : ref) (h : Button.heap) :
  result_of
    (Button.Button this "Accept" ;;
     r1 <- Button.AddArgument this "action" "accept" ;;
     r2 <- Button.SetInputId r1 "reply" ;;
     Button.GetXml r2) h
  = "<action content=Accept arguments=action&accept; hint-inputId=reply />".
Proof.
  unfold result_of, bind, Button.Button, Button.AddArgument, Button.SetInputId,
    Button.GetXml, assign, load, ret, bind. simpl.
  rewrite !upd_same. reflexivity.
Qed.

(** C5: two consecutive calls of [GetXml] on the same builder return
    identical strings; so do two calls with any calls in between that are
    not setter calls on that builder ([GetXml] calls, and calls on other
    builders). *)
Theorem GetXml_twice_same (this : ref) (h : Button.heap) :
  (let both :=
     result_of
       (x1 <- Button.GetXml this ;;
        x2 <- Button.GetXml this ;;
        ret (x1, x2)) h in
   fst both = snd both)
  /\ (forall tr : list (ref * ButtonCalls.call),
        ButtonCalls.no_setter_on this tr = true ->
        let both :=
          result_of
            (x1 <- Button.GetXml this ;;
             ButtonCalls.run tr ;;
             x2 <- Button.GetXml this ;;
             ret (x1, x2)) h in
        fst both = snd both).
Proof.
  split; [reflexivity |].
  intros tr Hq. unfold result_of, bind.
  rewrite GetXml_spec.
  pose proof (run_no_setter this tr h Hq) as Hrun. unfold store_after in Hrun.
  destruct (ButtonCalls.run tr h) as [answers h1]. simpl in Hrun.
  rewrite GetXml_spec. simpl. now rewrite Hrun.
Qed.

Lemma GetXml_twice_same_witness :
  fst (result_of
         (x1 <- Button.GetXml 0 ;;
          ButtonCalls.run
            [(0, ButtonCalls.CGetXml);
             (1, ButtonCalls.CSet (ButtonCalls.CSetToolTip "t"))] ;;
          x2 <- Button.GetXml 0 ;;
          ret (x1, x2)) (fun _ => Button.initial "x"))
  = snd (result_of
           (x1 <- Button.GetXml 0 ;;
            ButtonCalls.run
              [(0, ButtonCalls.CGetXml);
               (1, ButtonCalls.CSet (ButtonCalls.CSetToolTip "t"))] ;;
            x2 <- Button.GetXml 0 ;;
            ret (x1, x2)) (fun _ => Button.initial "x")).
Proof.
  apply (proj2 (GetXml_twice_same 0 (fun _ => Button.initial "x"))
           [(0, ButtonCalls.CGetXml);
            (1, ButtonCalls.CSet (ButtonCalls.CSetToolTip "t"))]).
  reflexivity.
Defined.

(** ** The claims about the setters *)

(** C7: [AddArgument(k, v)] on a mapping that already holds [k] replaces
    the value stored at the first (and only) position of [k] and leaves
    the pairs before and after it where they are, so the order of the keys
    is unchanged and [k] now maps to [v]; on a mapping without [k] it
    appends the pair [(k, v)] at the end. *)
Theorem AddArgument_overwrites_in_place (this : ref) (h : Button.heap)
    (k v : hstring) :
  let m := Button.m_arguments (h this) in
  let m' := Button.m_arguments
              (store_after (Button.AddArgument this k v) h this) in
  (In k (ArgMap.keys m) ->
   (exists l1 v0 l2,
      m = (l1 ++ (k, v0) :: l2)%list /\
      ~ In k (ArgMap.keys l1) /\
      m' = (l1 ++ (k, v) :: l2)%list)
   /\ ArgMap.keys m' = ArgMap.keys m
   /\ ArgMap.Lookup k m' = Some v)
  /\ (~ In k (ArgMap.keys m) -> m' = (m ++ [(k, v)])%list).
Proof.
  intros m m'. unfold m', store_after, Button.AddArgument, bind, assign, ret.
  simpl. rewrite upd_same. simpl. fold m. split.
  - intros Hin. split; [now apply Insert_present |].
    split; [now apply keys_Insert_present | apply Lookup_Insert].
  - apply Insert_fresh.
Qed.

Lemma AddArgument_overwrites_in_place_witness :
  (ArgMap.keys
     (Button.m_arguments
        (store_after (Button.AddArgument 0 "b" "9")
           (fun _ => Button.set_arguments [("a", "1"); ("b", "2"); ("c", "3")]
                       (Button.initial "x")) 0))
   = ["a"; "b"; "c"]
   /\ ArgMap.Lookup "b"
        (Button.m_arguments
           (store_after (Button.AddArgument 0 "b" "9")
              (fun _ => Button.set_arguments
                          [("a", "1"); ("b", "2"); ("c", "3")]
                          (Button.initial "x")) 0))
      = Some "9")
  /\ Button.m_arguments
       (store_after (Button.AddArgument 0 "d" "4")
          (fun _ => Button.set_arguments [("a", "1"); ("b", "2"); ("c", "3")]
                      (Button.initial "x")) 0)
     = [("a", "1"); ("b", "2"); ("c", "3"); ("d", "4")].
Proof.
  split.
  - apply (proj1 (AddArgument_overwrites_in_place 0
                    (fun _ => Button.set_arguments
                                [("a", "1"); ("b", "2"); ("c", "3")]
                                (Button.initial "x")) "b" "9")).
    simpl. auto.
  - apply (proj2 (AddArgument_overwrites_in_place 0
                    (fun _ => Button.set_arguments
                                [("a", "1"); ("b", "2"); ("c", "3")]
                                (Button.initial "x")) "d" "4")).
    simpl. intuition discriminate.
Defined.

(** C8: every configuration operation of Button and of Text returns the
    reference of its receiver and leaves the given value in its member
    (the flag true for the operations without argument; for
    [AddArgument] the key then maps to the value), whatever the string,
    URI or style; the methods have no failing result. *)
Theorem setters_store_and_return_this (this : ref) (h : Button.heap)
    (g : Text.heap) (key value s : hstring) (u : option Uri)
    (style : ButtonStyle) :
  (result_of (Button.AddArgument this key value) h = this
   /\ ArgMap.Lookup key
        (Button.m_arguments
           (store_after (Button.AddArgument this key value) h this))
      = Some value)
  /\ (result_of (Button.SetIconUri this u) h = this
      /\ Button.m_iconUri (store_after (Button.SetIconUri this u) h this) = u)
  /\ (result_of (Button.UseProtocolActivation this u) h = this
      /\ Button.m_protocolUri
           (store_after (Button.UseProtocolActivation this u) h this) = u)
  /\ (result_of (Button.SetToolTip this s) h = this
      /\ Button.m_toolTip (store_after (Button.SetToolTip this s) h this) = s)
  /\ (result_of (Button.SetInputId this s) h = this
      /\ Button.m_inputId (store_after (Button.SetInputId this s) h this) = s)
  /\ (result_of (Button.UseContextMenuPlacement this) h = this
      /\ Button.m_useContextMenuPlacement
           (store_after (Button.UseContextMenuPlacement this) h this) = true)
  /\ (result_of (Button.SetButtonStyle this style) h = this
      /\ Button.m_buttonStyle
           (store_after (Button.SetButtonStyle this style) h this) = style)
  /\ (result_of (Text.SetLanguage this s) g = this
      /\ Text.m_language (store_after (Text.SetLanguage this s) g this) = s)
  /\ (result_of (Text.UseCallScenarioAlign this) g = this
      /\ Text.m_useCallScenarioAlign
           (store_after (Text.UseCallScenarioAlign this) g this) = true)
  /\ (result_of (Text.UseAttributionText this) g = this
      /\ Text.m_useAttributionText
           (store_after (Text.UseAttributionText this) g this) = true).
Proof.
  unfold result_of, store_after, Button.AddArgument, Button.SetIconUri,
    Button.UseProtocolActivation, Button.SetToolTip, Button.SetInputId,
    Button.UseContextMenuPlacement, Button.SetButtonStyle, Text.SetLanguage,
    Text.UseCallScenarioAlign, Text.UseAttributionText, bind, assign, ret.
  simpl. rewrite !upd_same. simpl.
  repeat split. apply Lookup_Insert.
Qed.

(** C9: the content of a Button and of a Text is the one given to the
    constructor, and no later call (any setter or [GetXml], on any
    receiver, in any order and number) changes it. *)
Theorem content_never_changes (render : Text.t -> hstring) (this : ref)
    (content : hstring) :
  (forall (h : Button.heap) (tr : list (ref * ButtonCalls.call)),
     Button.m_content
       (store_after (Button.Button this content ;; ButtonCalls.run tr) h this)
     = content)
  /\ (forall (g : Text.heap) (tr : list (ref * Text.call)),
        Text.m_content
          (store_after (Text.Text this content ;; Text.run render tr) g this)
        = content).
Proof.
  split.
  - intros h tr. unfold store_after, bind at 1. unfold Button.Button, assign.
    pose proof (run_content tr this (upd h this (Button.initial content))) as H.
    unfold store_after in H. rewrite H, upd_same. reflexivity.
  - intros g tr. unfold store_after, bind at 1. unfold Text.Text, assign.
    pose proof (text_run_content render tr this
                  (upd g this (Text.initial content))) as H.
    unfold store_after in H. rewrite H, upd_same. reflexivity.
Qed.

(** C10: a Button setter assigns only its own member: every other member
    of the receiver, and every other object of the store, is as before;
    [UseProtocolActivation] for one leaves the icon URI, the tool tip,
    the input id, the placement flag, the style, the argument mapping and
    the content as they were. *)
Theorem setter_frame (this : ref) (h : Button.heap) (s : ButtonCalls.setter) :
  (forall f : member,
     f <> assigned s ->
     same_member f (h this)
       (store_after (ButtonCalls.invoke_setter this s) h this))
  /\ (forall r : ref,
        r <> this ->
        store_after (ButtonCalls.invoke_setter this s) h r = h r)
  /\ (forall u : option Uri,
        let b := h this in
        let b' := store_after (Button.UseProtocolActivation this u) h this in
        Button.m_iconUri b' = Button.m_iconUri b
        /\ Button.m_toolTip b' = Button.m_toolTip b
        /\ Button.m_inputId b' = Button.m_inputId b
        /\ Button.m_useContextMenuPlacement b'
           = Button.m_useContextMenuPlacement b
        /\ Button.m_buttonStyle b' = Button.m_buttonStyle b
        /\ Button.m_arguments b' = Button.m_arguments b
        /\ Button.m_content b' = Button.m_content b).
Proof.
  unfold store_after. rewrite invoke_setter_spec. simpl.
  rewrite upd_same. split; [| split].
  - intros f Hf. destruct s, f; simpl in *; congruence.
  - intros r Hr. now apply upd_other.
  - intros u. unfold Button.UseProtocolActivation, bind, assign, ret. simpl.
    rewrite upd_same. simpl. repeat split.
Qed.

Lemma setter_frame_witness :
  same_member MToolTip (Button.initial "x")
    (store_after
       (ButtonCalls.invoke_setter 0 (ButtonCalls.CSetInputId "reply"))
       (fun _ => Button.initial "x") 0)
  /\ store_after
       (ButtonCalls.invoke_setter 0 (ButtonCalls.CSetInputId "reply"))
       (fun _ => Button.initial "x") 1
     = Button.initial "x".
Proof.
  pose proof (setter_frame 0 (fun _ => Button.initial "x")
                (ButtonCalls.CSetInputId "reply")) as [Hf [Hr _]].
  split.
  - apply (Hf MToolTip). discriminate.
  - apply (Hr 1). discriminate.
Defined.

(** ** Where a text can occur in the element *)

Lemma render_app (l1 l2 : list chunk) :
  render (l1 ++ l2)%list = render l1 ++ render l2.
Proof.
  unfold render. now rewrite map_app, concat_all_app.
Qed.

Lemma render_argument_chunks (c : ascii) (T : hstring)
    (l : list (hstring * hstring)) :
  render (argument_chunks c T l)
  = String c (T ++ concat_all (map ButtonSpec.argument l)).
Proof.
  revert c T. induction l as [|kv l IH]; intros c T.
  - cbn. now rewrite !append_empty_r.
  - cbn [argument_chunks]. change (render (?a :: ?b :: ?r))
      with (render_chunk a ++ render_chunk b ++ render r).
    rewrite IH. unfold render_chunk, ButtonSpec.argument, concat_all. cbn.
    repeat (rewrite append_assoc; cbn [append]). reflexivity.
Qed.

Lemma render_attribute_chunks (b : Button.t) :
  render (attribute_chunks b) = ButtonSpec.after_arguments b.
Proof.
  unfold ButtonSpec.after_arguments, attribute_chunks,
    ButtonSpec.placement_attr, ButtonSpec.imageUri_attr,
    ButtonSpec.protocol_attr, ButtonSpec.inputId_attr, ButtonSpec.style_attr,
    ButtonSpec.toolTip_attr.
  destruct (Button.m_useContextMenuPlacement b), (Button.m_iconUri b),
    (Button.m_protocolUri b), (empty (Button.m_inputId b)),
    (Button.m_buttonStyle b), (empty (Button.m_toolTip b));
    cbn; rewrite ?append_empty_r, ?append_assoc; reflexivity.
Qed.

Lemma action_element_chunks (b : Button.t) :
  ButtonSpec.action_element b = "<action" ++ render (element_chunks b).
Proof.
  unfold element_chunks.
  change (render (?a :: ?r)) with (render_chunk a ++ render r).
  rewrite render_app, render_argument_chunks, render_attribute_chunks.
  unfold ButtonSpec.action_element, ButtonSpec.arguments_value, ArgMap.pairs,
    render_chunk.
  cbn [sep lit txt].
  change ("<action content=" ++ ?x)
    with ("<action" ++ String sp ("content=" ++ x)).
  change (" arguments=" ++ ?x) with (String sp ("arguments=" ++ x)).
  change (String sp ?x ++ ?y) with (String sp (x ++ y)).
  now rewrite !append_assoc.
Qed.

Lemma prefix_cons (a b : ascii) (P s : hstring) :
  prefix (String a P) (String b s) = true <-> a = b /\ prefix P s = true.
Proof.
  simpl. destruct (ascii_dec a b) as [->|Hne]; split.
  - auto.
  - now intros [_ H].
  - discriminate.
  - now intros [H _].
Qed.

Lemma prefix_empty_l (s : hstring) : prefix EmptyString s = true.
Proof.
  now destruct s.
Qed.

Lemma prefix_app_l (P s t : hstring) :
  prefix P s = true -> prefix P (s ++ t) = true.
Proof.
  revert s. induction P as [|a P IH]; intros s H; [apply prefix_empty_l |].
  destruct s as [|b s]; [discriminate |].
  apply prefix_cons in H as [-> H]. change (String b s ++ t) with (String b (s ++ t)).
  apply prefix_cons. auto.
Qed.

Lemma prefix_barrier (P u w : hstring) (c : ascii) :
  mentions c P = false ->
  prefix P (u ++ String c w) = true -> prefix P u = true.
Proof.
  revert u. induction P as [|a P IH]; intros u Hc H; [apply prefix_empty_l |].
  simpl in Hc. apply orb_false_elim in Hc as [Hac HcP].
  destruct u as [|b u].
  - simpl append in H. apply prefix_cons in H as [-> _].
    now rewrite Ascii.eqb_refl in Hac.
  - change (String b u ++ String c w) with (String b (u ++ String c w)) in H.
    apply prefix_cons in H as [-> H]. apply prefix_cons. auto.
Qed.

Lemma prefix_app_cases (P T x : hstring) :
  prefix P (T ++ x) = true -> prefix P T = true \/ prefix T P = true.
Proof.
  revert P. induction T as [|t T IH]; intros P H.
  - right. apply prefix_empty_l.
  - destruct P as [|a P]; [now left |].
    change (String t T ++ x) with (String t (T ++ x)) in H.
    apply prefix_cons in H as [-> H].
    destruct (IH _ H); [left | right]; apply prefix_cons; auto.
Qed.

Lemma contains_prefix (P s : hstring) :
  prefix P s = true -> contains P s = true.
Proof.
  intros H. destruct s; simpl in *; rewrite H; reflexivity.
Qed.

Lemma contains_cons (P s : hstring) (a : ascii) :
  contains P s = true -> contains P (String a s) = true.
Proof.
  intros H. cbn [contains]. rewrite H. apply orb_true_r.
Qed.

Lemma contains_String (P s : hstring) (a : ascii) :
  contains P (String a s) = prefix P (String a s) || contains P s.
Proof.
  reflexivity.
Qed.

Lemma contains_app_r (P x y : hstring) :
  contains P y = true -> contains P (x ++ y) = true.
Proof.
  intros H. induction x as [|a x IH]; [exact H |].
  simpl append. now apply contains_cons.
Qed.

Lemma contains_app_l (P x y : hstring) :
  contains P x = true -> contains P (x ++ y) = true.
Proof.
  induction x as [|a x IH]; intros H.
  - simpl in H. rewrite orb_false_r in H. destruct P; [| discriminate].
    apply contains_prefix. apply prefix_empty_l.
  - rewrite contains_String in H. apply orb_true_iff in H as [H|H].
    + apply contains_prefix. now apply prefix_app_l.
    + simpl append. apply contains_cons. auto.
Qed.

Lemma prefix_split (P s : hstring) :
  prefix P s = true <-> exists post, s = P ++ post.
Proof.
  revert s. induction P as [|a P IH]; intros s.
  - split; [intros _; now exists s | intros _; apply prefix_empty_l].
  - destruct s as [|b s].
    + split; [discriminate | intros [post H]; discriminate].
    + rewrite prefix_cons, IH. split.
      * intros [-> [post ->]]. now exists post.
      * intros [post H]. injection H as -> ->. split; [reflexivity | now exists post].
Qed.

(** [contains] decides the occurrence of [P] as a contiguous substring. *)
Lemma contains_iff (P s : hstring) :
  contains P s = true <-> exists pre post, s = pre ++ P ++ post.
Proof.
  split.
  - induction s as [|a s IH]; intros H.
    + change (contains P EmptyString) with (prefix P EmptyString || false) in H.
      rewrite orb_false_r in H.
      apply prefix_split in H as [post H]. now exists EmptyString, post.
    + rewrite contains_String in H. apply orb_true_iff in H as [H|H].
      * apply prefix_split in H as [post H]. now exists EmptyString, post.
      * destruct (IH H) as (pre & post & ->). now exists (String a pre), post.
  - intros (pre & post & ->). apply contains_app_r, contains_app_l.
    apply contains_prefix, prefix_split. exists EmptyString.
    now rewrite append_empty_r.
Qed.

(** An occurrence of [P] cannot run over a code unit that [P] lacks. *)
Lemma contains_barrier (P u w : hstring) (c : ascii) :
  mentions c P = false ->
  contains P (u ++ String c w) = true ->
  contains P u = true \/ contains P w = true.
Proof.
  intros Hc. induction u as [|a u IH]; intros H.
  - simpl append in H. rewrite contains_String in H.
    apply orb_true_iff in H as [H|H]; [left | now right].
    apply contains_prefix. now apply (prefix_barrier P EmptyString w c).
  - change (String a u ++ String c w) with (String a (u ++ String c w)) in H.
    rewrite contains_String in H. apply orb_true_iff in H as [H|H].
    + left. apply contains_prefix.
      now apply (prefix_barrier P (String a u) w c).
    + destruct (IH H) as [H'|H']; [left | now right].
      now apply contains_cons.
Qed.

(** An occurrence of [P] in a literal followed by a text lies in the
    text, when no suffix of the literal overlaps [P]. *)
Lemma contains_past_literal (P T x : hstring) :
  no_overlap P T = true ->
  contains P (T ++ x) = true -> contains P x = true.
Proof.
  induction T as [|t T IH]; intros Hn H; [exact H |].
  cbn [no_overlap] in Hn.
  apply andb_true_iff in Hn as [Hn HT]. apply andb_true_iff in Hn as [H1 H2].
  change (String t T ++ x) with (String t (T ++ x)) in H.
  rewrite contains_String in H. apply orb_true_iff in H as [H|H]; [| auto].
  change (String t (T ++ x)) with (String t T ++ x) in H.
  apply prefix_app_cases in H as [H|H].
  - now rewrite H in H2.
  - now rewrite H in H1.
Qed.

Lemma contains_chunks (P : hstring) (chs : list chunk) (U : hstring) :
  forallb (clear_of P) chs = true ->
  contains P (U ++ render chs) = true ->
  contains P U = true
  \/ existsb (fun ch => contains P (txt ch)) chs = true.
Proof.
  revert U. induction chs as [|ch chs IH]; intros U Hcl H.
  - left. cbn in H. now rewrite append_empty_r in H.
  - cbn [forallb] in Hcl. apply andb_true_iff in Hcl as [Hch Hcl].
    unfold clear_of in Hch. apply andb_true_iff in Hch as [Hs Hl].
    apply negb_true_iff in Hs.
    change (render (ch :: chs))
      with (String (sep ch) ((lit ch ++ txt ch) ++ render chs)) in H.
    apply contains_barrier in H as [H|H]; [now left | right | exact Hs].
    cbn [existsb]. apply orb_true_iff.
    destruct (IH _ Hcl H) as [H'|H']; [left | now right].
    now apply (contains_past_literal P (lit ch)).
Qed.

Lemma chunk_contained (P : hstring) (chs : list chunk) (U : hstring)
    (ch : chunk) :
  In ch chs ->
  contains P (render_chunk ch) = true ->
  contains P (U ++ render chs) = true.
Proof.
  intros Hin H. apply contains_app_r.
  induction chs as [|ch' chs IH]; [contradiction |].
  change (render (ch' :: chs)) with (render_chunk ch' ++ render chs).
  destruct Hin as [->|Hin].
  - now apply contains_app_l.
  - apply contains_app_r. auto.
Qed.

Lemma text_contained (P : hstring) (chs : list chunk) (U : hstring) :
  existsb (fun ch => contains P (txt ch)) chs = true ->
  contains P (U ++ render chs) = true.
Proof.
  intros H. apply existsb_exists in H as (ch & Hin & H).
  apply (chunk_contained P chs U ch Hin).
  unfold render_chunk. apply contains_cons. now apply contains_app_r.
Qed.

Lemma clear_of_literal (P : hstring) (c : ascii) (T x : hstring) :
  clear_of P (Chunk c T x) = clear_of P (Chunk c T EmptyString).
Proof.
  reflexivity.
Qed.

Lemma argument_chunks_clear (P : hstring) (c : ascii) (T : hstring)
    (l : list (hstring * hstring)) :
  clear_of P (Chunk c T EmptyString) = true ->
  clear_of P (Chunk (ascii_of_nat 38) EmptyString EmptyString) = true ->
  clear_of P (Chunk (ascii_of_nat 59) EmptyString EmptyString) = true ->
  forallb (clear_of P) (argument_chunks c T l) = true.
Proof.
  intros Hc Hamp Hsemi. revert c T Hc.
  induction l as [|kv l IH]; intros c T Hc; cbn [argument_chunks forallb].
  - now rewrite Hc.
  - rewrite (clear_of_literal P c), Hc, (clear_of_literal P (ascii_of_nat 38)), Hamp.
    cbn [andb]. now apply IH.
Qed.

Lemma element_chunks_clear (P : hstring) (b : Button.t) :
  forallb (clear_of P) fixed_chunks = true ->
  (Button.m_buttonStyle b = Success ->
   clear_of P (Chunk sp ButtonSpec.style_success EmptyString) = true) ->
  forallb (clear_of P) (element_chunks b) = true.
Proof.
  intros Hfix Hstyle. cbn [fixed_chunks forallb] in Hfix.
  repeat (apply andb_true_iff in Hfix as [?H Hfix]).
  unfold element_chunks. cbn [forallb]. rewrite forallb_app.
  rewrite (clear_of_literal P sp "content="), H. cbn [andb].
  rewrite argument_chunks_clear by assumption. cbn [andb].
  unfold attribute_chunks. rewrite !forallb_app.
  destruct (Button.m_useContextMenuPlacement b), (Button.m_iconUri b),
    (Button.m_protocolUri b), (empty (Button.m_inputId b)),
    (Button.m_buttonStyle b), (empty (Button.m_toolTip b));
    cbn [forallb];
    rewrite ?(clear_of_literal P sp "imageUri="),
      ?(clear_of_literal P sp "protocolActivationTargetApplicationPfn="),
      ?(clear_of_literal P sp "hint-inputId="),
      ?(clear_of_literal P sp "hint-toolTip=");
    try rewrite Hstyle by reflexivity;
    repeat match goal with Hx : _ = true |- _ => rewrite Hx; clear Hx end;
    reflexivity.
Qed.

Lemma argument_chunks_texts (P : hstring) (c : ascii) (T : hstring)
    (l : list (hstring * hstring)) :
  contains P EmptyString = false ->
  existsb (fun ch => contains P (txt ch)) (argument_chunks c T l)
  = existsb (contains P)
      (flat_map (fun pair => [ArgMap.Key pair; ArgMap.Value pair]) l).
Proof.
  intros He. revert c T.
  induction l as [|kv l IH]; intros c T; cbn [argument_chunks existsb flat_map txt].
  - rewrite He. reflexivity.
  - cbn [app existsb]. now rewrite IH.
Qed.

Lemma contains_empty_text (P s : hstring) :
  contains P EmptyString = false -> empty s = true -> contains P s = false.
Proof.
  intros He Hs. apply empty_true in Hs. now subst s.
Qed.

Lemma element_chunks_texts (P : hstring) (b : Button.t) :
  contains P EmptyString = false ->
  existsb (fun ch => contains P (txt ch)) (element_chunks b)
  = ButtonSpec.supplied P b.
Proof.
  intros He. unfold ButtonSpec.supplied, ButtonSpec.caller_strings,
    element_chunks, attribute_chunks, ArgMap.pairs.
  cbn [existsb txt]. f_equal.
  rewrite !existsb_app, (argument_chunks_texts P _ _ _ He). f_equal.
  pose proof (contains_empty_text P (Button.m_inputId b) He) as Hi.
  pose proof (contains_empty_text P (Button.m_toolTip b) He) as Ht.
  destruct (Button.m_useContextMenuPlacement b), (Button.m_iconUri b),
    (Button.m_protocolUri b), (empty (Button.m_inputId b)),
    (Button.m_buttonStyle b), (empty (Button.m_toolTip b));
    cbn [existsb txt ButtonSpec.uri_text];
    rewrite ?He, ?Hi, ?Ht by reflexivity;
    rewrite ?orb_false_r, ?orb_false_l; reflexivity.
Qed.

(** Where a text [P] without space, [&] or [;] can occur in the element:
    in a caller's string, unless it overlaps a literal. *)
Lemma xml_of_contains (P : hstring) (b : Button.t) :
  contains P EmptyString = false ->
  contains P "<action" = false ->
  forallb (clear_of P) fixed_chunks = true ->
  (Button.m_buttonStyle b = Success ->
   clear_of P (Chunk sp ButtonSpec.style_success EmptyString) = true) ->
  contains P (Button.xml_of b) = ButtonSpec.supplied P b.
Proof.
  intros He Ha Hfix Hstyle.
  rewrite xml_of_layout, action_element_chunks, <- (element_chunks_texts P b He).
  destruct (existsb (fun ch => contains P (txt ch)) (element_chunks b)) eqn:Hex.
  - now apply text_contained.
  - destruct (contains P ("<action" ++ render (element_chunks b))) eqn:Hc;
      [| reflexivity].
    apply contains_chunks in Hc as [Hc|Hc]; [congruence | congruence |].
    now apply element_chunks_clear.
Qed.

(** C2, as the code has it: the element contains
    [hint-buttonStyle="success"] exactly when the style is Success or a
    string supplied by the caller (content, argument key or value, URI
    string, input id, tool tip) already contains that text; it contains
    [hint-buttonStyle="critical"] exactly when a string supplied by the
    caller contains that text, whatever the style: the style Critical
    writes nothing, and the element of a Critical button equals that of the
    same button with the style Default. *)
Theorem GetXml_style_marker (this : ref) (h : Button.heap) :
  let b := h this in
  (contains ButtonSpec.style_success (result_of (Button.GetXml this) h) = true
   <-> Button.m_buttonStyle b = Success
       \/ ButtonSpec.supplied ButtonSpec.style_success b = true)
  /\ (contains ButtonSpec.style_critical (result_of (Button.GetXml this) h)
      = true
      <-> ButtonSpec.supplied ButtonSpec.style_critical b = true)
  /\ result_of (Button.SetButtonStyle this Critical ;; Button.GetXml this) h
     = result_of (Button.SetButtonStyle this Default ;; Button.GetXml this) h.
Proof.
  intros b. unfold result_of. rewrite GetXml_spec. cbn [fst]. fold b.
  split; [| split].
  - destruct (Button.m_buttonStyle b) eqn:Hs.
    + rewrite xml_of_contains; try reflexivity; [| congruence].
      split; [auto | intros [H|H]; [discriminate | exact H]].
    + split; [auto | intros _].
      rewrite xml_of_layout, action_element_chunks.
      apply (chunk_contained _ _ _
               (Chunk sp ButtonSpec.style_success EmptyString));
        [| reflexivity].
      unfold element_chunks, attribute_chunks. rewrite Hs.
      right. apply in_or_app. right.
      do 4 (apply in_or_app; right). apply in_or_app. left. now left.
    + rewrite xml_of_contains; try reflexivity; [| congruence].
      split; [auto | intros [H|H]; [discriminate | exact H]].
  - rewrite xml_of_contains; try reflexivity.
  - unfold Button.SetButtonStyle, Button.GetXml, bind, assign, load, ret.
    cbn. rewrite !upd_same. reflexivity.
Qed.

(** C2 as stated fails: a new Button whose content is the text
    [hint-buttonStyle="critical"] has the style Default, and its element
    contains that text; likewise for the success text. *)
Lemma GetXml_style_marker_from_content :
  Button.m_buttonStyle
    (store_after (Button.Button 0 ButtonSpec.style_critical)
       (fun _ => Button.initial EmptyString) 0) = Default
  /\ contains ButtonSpec.style_critical
       (result_of
          (Button.Button 0 ButtonSpec.style_critical ;; Button.GetXml 0)
          (fun _ => Button.initial EmptyString)) = true
  /\ contains ButtonSpec.style_success
       (result_of
          (Button.Button 0 ButtonSpec.style_success ;; Button.GetXml 0)
          (fun _ => Button.initial EmptyString)) = true.
Proof.
  repeat split; vm_compute; reflexivity.
Qed.

(** ** Further properties of Button.cpp *)

(** *** The order of a fluent chain *)

Lemma effect_commute (s1 s2 : ButtonCalls.setter) (b : Button.t) :
  assigned s1 <> assigned s2 ->
  ButtonCalls.effect s1 (ButtonCalls.effect s2 b)
  = ButtonCalls.effect s2 (ButtonCalls.effect s1 b).
Proof.
  intros Hne. destruct s1, s2; simpl in Hne; try congruence; reflexivity.
Qed.

Lemma effect_overwrite (s1 s2 : ButtonCalls.setter) (b : Button.t) :
  assigned s1 = assigned s2 ->
  assigned s2 <> MArguments ->
  ButtonCalls.effect s2 (ButtonCalls.effect s1 b) = ButtonCalls.effect s2 b.
Proof.
  intros He Hn. destruct s1, s2; simpl in He, Hn; try congruence; reflexivity.
Qed.

Lemma chain_spec (ss : list ButtonCalls.setter) (this : ref) (h : Button.heap) :
  result_of (chain this ss) h = this
  /\ store_after (chain this ss) h this
     = fold_left (fun b s => ButtonCalls.effect s b) ss (h this)
  /\ (forall r, r <> this -> store_after (chain this ss) h r = h r).
Proof.
  revert h. induction ss as [|s ss IH]; intros h.
  - repeat split.
  - unfold result_of, store_after in *. cbn [chain]. unfold bind.
    rewrite invoke_setter_spec.
    destruct (IH (upd h this (ButtonCalls.effect s (h this)))) as (Hr & Hs & Ho).
    rewrite upd_same in Hs. repeat split; [exact Hr | exact Hs |].
    intros r Hne. rewrite (Ho r Hne). now apply upd_other.
Qed.

Lemma effects_permutation (ss1 ss2 : list ButtonCalls.setter) :
  Permutation ss1 ss2 ->
  NoDup (map assigned ss1) ->
  forall b,
    fold_left (fun b s => ButtonCalls.effect s b) ss1 b
    = fold_left (fun b s => ButtonCalls.effect s b) ss2 b.
Proof.
  induction 1 as [|x l l' Hp IH|x y l|l l' l'' Hp1 IH1 Hp2 IH2];
    intros Hnd b.
  - reflexivity.
  - simpl. apply IH. now inversion Hnd.
  - simpl. f_equal. apply effect_commute.
    simpl in Hnd. inversion Hnd as [|? ? Hin _]. intros He. apply Hin.
    left. congruence.
  - rewrite IH1 by exact Hnd. apply IH2.
    apply (Permutation_NoDup (Permutation_map assigned Hp1) Hnd).
Qed.

(** X1: the order of the calls in a fluent chain of setters that assign
    pairwise different members does not matter: any reordering of the
    chain leaves the builder in the same state, returns the same builder
    and gives the same [GetXml]. *)
Theorem chain_order_irrelevant (this : ref) (h : Button.heap)
    (ss1 ss2 : list ButtonCalls.setter) :
  NoDup (map assigned ss1) ->
  Permutation ss1 ss2 ->
  result_of (chain this ss1) h = result_of (chain this ss2) h
  /\ (forall r,
        store_after (chain this ss1) h r = store_after (chain this ss2) h r)
  /\ result_of (r <- chain this ss1 ;; Button.GetXml r) h
     = result_of (r <- chain this ss2 ;; Button.GetXml r) h.
Proof.
  intros Hnd Hp.
  destruct (chain_spec ss1 this h) as (Hr1 & Hs1 & Ho1).
  destruct (chain_spec ss2 this h) as (Hr2 & Hs2 & Ho2).
  assert (Hst : forall r,
             store_after (chain this ss1) h r = store_after (chain this ss2) h r).
  { intros r. destruct (Nat.eq_dec r this) as [->|Hne].
    - rewrite Hs1, Hs2. now apply effects_permutation.
    - now rewrite Ho1, Ho2. }
  split; [congruence | split; [exact Hst |]].
  specialize (Hst this).
  unfold result_of, store_after, bind in *.
  destruct (chain this ss1 h) as [r1 h1], (chain this ss2 h) as [r2 h2].
  cbn [fst snd] in *. subst r1 r2. rewrite !GetXml_spec. cbn [fst].
  now rewrite Hst.
Qed.

Lemma chain_order_irrelevant_witness :
  result_of
    (r <- chain 0 [ButtonCalls.CSetToolTip "tip"; ButtonCalls.CSetInputId "id";
                   ButtonCalls.CUseContextMenuPlacement] ;;
     Button.GetXml r) (fun _ => Button.initial "x")
  = result_of
      (r <- chain 0 [ButtonCalls.CUseContextMenuPlacement;
                     ButtonCalls.CSetToolTip "tip"; ButtonCalls.CSetInputId "id"] ;;
       Button.GetXml r) (fun _ => Button.initial "x").
Proof.
  apply (chain_order_irrelevant 0 (fun _ => Button.initial "x")
           [ButtonCalls.CSetToolTip "tip"; ButtonCalls.CSetInputId "id";
            ButtonCalls.CUseContextMenuPlacement]
           [ButtonCalls.CUseContextMenuPlacement;
            ButtonCalls.CSetToolTip "tip"; ButtonCalls.CSetInputId "id"]).
  - simpl. repeat constructor; simpl; intuition discriminate.
  - apply Permutation_sym.
    apply (Permutation_cons_app
             [ButtonCalls.CSetToolTip "tip"; ButtonCalls.CSetInputId "id"] []).
    simpl. apply Permutation_refl.
Defined.

(** X2: for every setter but [AddArgument] the last write wins: a call
    followed by a call that assigns the same member leaves the builder as
    the second call alone does, so the first value never shows in
    [GetXml]. *)
Theorem setter_last_write_wins (this : ref) (h : Button.heap)
    (s1 s2 : ButtonCalls.setter) :
  assigned s1 = assigned s2 ->
  assigned s2 <> MArguments ->
  store_after (chain this [s1; s2]) h this = store_after (chain this [s2]) h this
  /\ result_of (r <- chain this [s1; s2] ;; Button.GetXml r) h
     = result_of (r <- chain this [s2] ;; Button.GetXml r) h.
Proof.
  intros He Hn.
  destruct (chain_spec [s1; s2] this h) as (Hr1 & Hs1 & _).
  destruct (chain_spec [s2] this h) as (Hr2 & Hs2 & _).
  cbn [fold_left] in Hs1, Hs2. rewrite (effect_overwrite _ _ _ He Hn) in Hs1.
  split; [congruence |].
  unfold result_of, store_after, bind in *.
  destruct (chain this [s1; s2] h) as [r1 h1], (chain this [s2] h) as [r2 h2].
  cbn [fst snd] in *. subst r1 r2. rewrite !GetXml_spec. cbn [fst].
  congruence.
Qed.

Lemma setter_last_write_wins_witness :
  result_of
    (r <- chain 0 [ButtonCalls.CSetButtonStyle Success;
                   ButtonCalls.CSetButtonStyle Default] ;;
     Button.GetXml r) (fun _ => Button.initial "x")
  = result_of
      (r <- chain 0 [ButtonCalls.CSetButtonStyle Default] ;; Button.GetXml r)
      (fun _ => Button.initial "x").
Proof.
  apply (setter_last_write_wins 0 (fun _ => Button.initial "x")
           (ButtonCalls.CSetButtonStyle Success)
           (ButtonCalls.CSetButtonStyle Default)).
  - reflexivity.
  - discriminate.
Defined.

(** *** What stays in the element *)

Lemma contains_middle (P x y : hstring) : contains P (x ++ P ++ y) = true.
Proof.
  apply contains_iff. now exists x, y.
Qed.

Lemma effect_placement (s : ButtonCalls.setter) (b : Button.t) :
  Button.m_useContextMenuPlacement b = true ->
  Button.m_useContextMenuPlacement (ButtonCalls.effect s b) = true.
Proof.
  destruct s; simpl; auto.
Qed.

Lemma invoke_placement (this r : ref) (c : ButtonCalls.call) (h : Button.heap) :
  Button.m_useContextMenuPlacement (h this) = true ->
  Button.m_useContextMenuPlacement
    (store_after (ButtonCalls.invoke r c) h this) = true.
Proof.
  intros Hf. destruct c as [s|]; unfold store_after, ButtonCalls.invoke, bind.
  - rewrite invoke_setter_spec. unfold ret. cbn [snd].
    destruct (Nat.eq_dec this r) as [->|Hne].
    + rewrite upd_same. now apply effect_placement.
    + now rewrite upd_other.
  - rewrite GetXml_spec. exact Hf.
Qed.

Lemma run_placement (tr : list (ref * ButtonCalls.call)) (this : ref)
    (h : Button.heap) :
  Button.m_useContextMenuPlacement (h this) = true ->
  Button.m_useContextMenuPlacement
    (store_after (ButtonCalls.run tr) h this) = true.
Proof.
  revert h. induction tr as [|[r c] tr IH]; intros h Hf; [exact Hf |].
  pose proof (invoke_placement this r c h Hf) as Hi.
  unfold store_after in *. cbn [ButtonCalls.run]. unfold bind at 1.
  destruct (ButtonCalls.invoke r c h) as [a h1]. cbn [snd] in Hi.
  unfold bind. specialize (IH h1 Hi).
  destruct (ButtonCalls.run tr h1) as [rest h2]. exact IH.
Qed.

Lemma placement_in_xml (b : Button.t) :
  Button.m_useContextMenuPlacement b = true ->
  contains Button.lit_placement (Button.xml_of b) = true.
Proof.
  intros Hf. rewrite xml_of_layout.
  unfold ButtonSpec.action_element, ButtonSpec.after_arguments,
    ButtonSpec.placement_attr. rewrite Hf.
  apply contains_iff.
  exists ("<action content=" ++ Button.m_content b ++ " arguments="
          ++ ButtonSpec.arguments_value (Button.m_arguments b)).
  eexists. rewrite !append_assoc. reflexivity.
Qed.

(** X3: the placement flag can only be switched on: after
    [UseContextMenuPlacement] no sequence of later calls (setters or
    [GetXml], on any builders) clears it, and every later [GetXml] of the
    builder contains [ placement="contextMenu"]. *)
Theorem placement_flag_sticky (this : ref) (h : Button.heap)
    (tr : list (ref * ButtonCalls.call)) :
  Button.m_useContextMenuPlacement
    (store_after (Button.UseContextMenuPlacement this ;; ButtonCalls.run tr)
       h this) = true
  /\ contains Button.lit_placement
       (result_of
          (Button.UseContextMenuPlacement this ;;
           ButtonCalls.run tr ;;
           Button.GetXml this) h) = true.
Proof.
  set (h0 := upd h this (Button.set_useContextMenuPlacement true (h this))).
  assert (H0 : Button.m_useContextMenuPlacement (h0 this) = true).
  { unfold h0. now rewrite upd_same. }
  pose proof (run_placement tr this h0 H0) as Hrun.
  unfold result_of, store_after, bind in *.
  change (Button.UseContextMenuPlacement this h) with (this, h0).
  cbv beta iota. revert Hrun.
  generalize (ButtonCalls.run tr h0). intros [answers h1] Hrun.
  cbn [snd] in *. split; [exact Hrun |].
  rewrite GetXml_spec. cbn [fst]. now apply placement_in_xml.
Qed.

Lemma argument_in_value (kv : hstring * hstring)
    (l : list (hstring * hstring)) :
  In kv l ->
  exists pre post,
    concat_all (map ButtonSpec.argument l)
    = pre ++ ButtonSpec.argument kv ++ post.
Proof.
  intros Hin. apply in_split in Hin as (l1 & l2 & ->).
  exists (concat_all (map ButtonSpec.argument l1)),
         (concat_all (map ButtonSpec.argument l2)).
  now rewrite map_app, concat_all_app.
Qed.

(** X4: nothing of the mapping is dropped: for every pair of the argument
    mapping the element returned by [GetXml] contains the text
    [key&value;]. *)
Theorem every_argument_serialised (this : ref) (h : Button.heap)
    (kv : hstring * hstring) :
  In kv (ArgMap.pairs (Button.m_arguments (h this))) ->
  contains (ArgMap.Key kv ++ "&" ++ ArgMap.Value kv ++ ";")
    (result_of (Button.GetXml this) h) = true.
Proof.
  intros Hin. unfold result_of. rewrite GetXml_spec. cbn [fst].
  rewrite xml_of_layout. unfold ButtonSpec.action_element,
    ButtonSpec.arguments_value.
  destruct (argument_in_value kv _ Hin) as (pre & post & ->).
  apply contains_iff.
  exists ("<action content=" ++ Button.m_content (h this) ++ " arguments="
          ++ pre).
  exists (post ++ ButtonSpec.after_arguments (h this)).
  unfold ButtonSpec.argument. now rewrite !append_assoc.
Qed.

Lemma every_argument_serialised_witness :
  contains "b&2;"
    (result_of (Button.GetXml 0)
       (fun _ => Button.set_arguments [("a", "1"); ("b", "2")]
                   (Button.initial "x"))) = true.
Proof.
  apply (every_argument_serialised 0
           (fun _ => Button.set_arguments [("a", "1"); ("b", "2")]
                       (Button.initial "x")) ("b", "2")).
  simpl. auto.
Defined.

Lemma segment_in_xml (b : Button.t) (seg : hstring) :
  seg = ButtonSpec.imageUri_attr b \/ seg = ButtonSpec.protocol_attr b
  \/ seg = ButtonSpec.inputId_attr b \/ seg = ButtonSpec.style_attr b
  \/ seg = ButtonSpec.toolTip_attr b ->
  contains seg (Button.xml_of b) = true.
Proof.
  intros H. rewrite xml_of_layout.
  unfold ButtonSpec.action_element, ButtonSpec.after_arguments.
  apply contains_iff.
  set (open := "<action content=" ++ Button.m_content b ++ " arguments="
               ++ ButtonSpec.arguments_value (Button.m_arguments b)).
  destruct H as [-> | [-> | [-> | [-> | ->]]]].
  - exists (open ++ ButtonSpec.placement_attr b). eexists.
    unfold open. rewrite !append_assoc. reflexivity.
  - exists (open ++ ButtonSpec.placement_attr b ++ ButtonSpec.imageUri_attr b).
    eexists. unfold open. rewrite !append_assoc. reflexivity.
  - exists (open ++ ButtonSpec.placement_attr b ++ ButtonSpec.imageUri_attr b
            ++ ButtonSpec.protocol_attr b).
    eexists. unfold open. rewrite !append_assoc. reflexivity.
  - exists (open ++ ButtonSpec.placement_attr b ++ ButtonSpec.imageUri_attr b
            ++ ButtonSpec.protocol_attr b ++ ButtonSpec.inputId_attr b).
    eexists. unfold open. rewrite !append_assoc. reflexivity.
  - exists (open ++ ButtonSpec.placement_attr b ++ ButtonSpec.imageUri_attr b
            ++ ButtonSpec.protocol_attr b ++ ButtonSpec.inputId_attr b
            ++ ButtonSpec.style_attr b).
    eexists. unfold open. rewrite !append_assoc. reflexivity.
Qed.

(** X5: a value given to a setter shows in the next [GetXml]: a non-empty
    tool tip as [ hint-toolTip=] and the tool tip, a non-empty input id as
    [ hint-inputId=] and the id, a non-null icon URI as [ imageUri=] and
    its string, a non-null protocol URI after the protocol literal, and
    the style Success as [ hint-buttonStyle="success"]. *)
Theorem set_value_shows (this : ref) (h : Button.heap) :
  (forall t, t <> EmptyString ->
     contains (" hint-toolTip=" ++ t)
       (result_of (r <- Button.SetToolTip this t ;; Button.GetXml r) h) = true)
  /\ (forall i, i <> EmptyString ->
        contains (" hint-inputId=" ++ i)
          (result_of (r <- Button.SetInputId this i ;; Button.GetXml r) h)
        = true)
  /\ (forall u,
        contains (" imageUri=" ++ ToString u)
          (result_of (r <- Button.SetIconUri this (Some u) ;; Button.GetXml r) h)
        = true)
  /\ (forall u,
        contains (Button.lit_protocol ++ ToString u)
          (result_of
             (r <- Button.UseProtocolActivation this (Some u) ;;
              Button.GetXml r) h)
        = true)
  /\ contains Button.lit_success
       (result_of (r <- Button.SetButtonStyle this Success ;; Button.GetXml r) h)
     = true.
Proof.
  unfold result_of, bind, Button.SetToolTip, Button.SetInputId,
    Button.SetIconUri, Button.UseProtocolActivation, Button.SetButtonStyle,
    bind, assign, ret.
  repeat split; intros; rewrite GetXml_spec; cbn [fst]; rewrite upd_same.
  - apply segment_in_xml. do 4 right.
    unfold ButtonSpec.toolTip_attr. cbn [Button.set_toolTip Button.m_toolTip].
    destruct t; [congruence | reflexivity].
  - apply segment_in_xml. do 2 right. left.
    unfold ButtonSpec.inputId_attr. cbn [Button.set_inputId Button.m_inputId].
    destruct i; [congruence | reflexivity].
  - apply segment_in_xml. left. reflexivity.
  - apply segment_in_xml. right. left. reflexivity.
  - apply segment_in_xml. do 3 right. left. reflexivity.
Qed.

Lemma set_value_shows_witness :
  contains " hint-toolTip=tip"
    (result_of (r <- Button.SetToolTip 0 "tip" ;; Button.GetXml r)
       (fun _ => Button.initial "x")) = true.
Proof.
  apply (proj1 (set_value_shows 0 (fun _ => Button.initial "x")) "tip").
  discriminate.
Defined.

(** *** Reading the arguments back *)

Lemma length_append (a b : hstring) :
  String.length (a ++ b) = String.length a + String.length b.
Proof.
  induction a as [|c a IH]; simpl; [reflexivity | now rewrite IH].
Qed.

Lemma append_cancel_l (a x y : hstring) : a ++ x = a ++ y -> x = y.
Proof.
  induction a as [|c a IH]; simpl; intros H; [exact H |].
  injection H as H. auto.
Qed.

(** A string is cut at a delimiter in one way only, when the part before
    the delimiter does not hold it. *)
Lemma split_unique (c : ascii) (a1 a2 r1 r2 : hstring) :
  mentions c a1 = false ->
  mentions c a2 = false ->
  a1 ++ String c r1 = a2 ++ String c r2 ->
  a1 = a2 /\ r1 = r2.
Proof.
  revert a2. induction a1 as [|x a1 IH]; intros [|y a2] H1 H2 H; simpl in *.
  - injection H as H. auto.
  - injection H as Hc _. subst y.
    rewrite Ascii.eqb_refl in H2. discriminate.
  - injection H as Hc _. subst x.
    rewrite Ascii.eqb_refl in H1. discriminate.
  - injection H as Hxy H. subst y.
    apply orb_false_elim in H1 as [_ H1]. apply orb_false_elim in H2 as [_ H2].
    destruct (IH a2 H1 H2 H) as [-> ->]. auto.
Qed.

Lemma argument_unfold (kv : hstring * hstring) (R : hstring) :
  ButtonSpec.argument kv ++ R
  = ArgMap.Key kv ++ String amp (ArgMap.Value kv ++ String semi R).
Proof.
  unfold ButtonSpec.argument.
  repeat (rewrite append_assoc; cbn [append]). reflexivity.
Qed.

Lemma arguments_not_empty (kv : hstring * hstring)
    (l : list (hstring * hstring)) (R : hstring) :
  R <> concat_all (map ButtonSpec.argument (kv :: l)) ++ R.
Proof.
  intros H. apply (f_equal String.length) in H.
  cbn [map concat_all fold_right] in H. unfold ButtonSpec.argument in H.
  rewrite !length_append in H. simpl in H. lia.
Qed.

Lemma arguments_injective (l1 l2 : list (hstring * hstring)) (R : hstring) :
  delimiter_free l1 = true ->
  delimiter_free l2 = true ->
  concat_all (map ButtonSpec.argument l1) ++ R
  = concat_all (map ButtonSpec.argument l2) ++ R ->
  l1 = l2.
Proof.
  revert l2. induction l1 as [|kv1 l1 IH]; intros [|kv2 l2] H1 H2 H.
  - reflexivity.
  - exfalso. exact (arguments_not_empty kv2 l2 R H).
  - exfalso. exact (arguments_not_empty kv1 l1 R (eq_sym H)).
  - unfold delimiter_free in H1, H2. cbn [forallb] in H1, H2.
    apply andb_true_iff in H1 as [Hd1 H1].
    apply andb_true_iff in H2 as [Hd2 H2].
    apply andb_true_iff in Hd1 as [Hk1 Hv1].
    apply andb_true_iff in Hd2 as [Hk2 Hv2].
    apply negb_true_iff in Hk1, Hv1, Hk2, Hv2.
    cbn [map concat_all fold_right] in H.
    fold (concat_all (map ButtonSpec.argument l1)) in H.
    fold (concat_all (map ButtonSpec.argument l2)) in H.
    rewrite !append_assoc, !argument_unfold in H.
    apply split_unique in H as [Hk H]; [| assumption | assumption].
    apply split_unique in H as [Hv H]; [| assumption | assumption].
    f_equal.
    + destruct kv1, kv2. unfold ArgMap.Key, ArgMap.Value in Hk, Hv.
      simpl in Hk, Hv. congruence.
    + now apply IH.
Qed.

Lemma after_arguments_same (b1 b2 : Button.t) :
  (forall f, f <> MArguments -> same_member f b1 b2) ->
  Button.m_content b1 = Button.m_content b2
  /\ ButtonSpec.after_arguments b1 = ButtonSpec.after_arguments b2.
Proof.
  intros H.
  pose proof (H MContent) as Hc. pose proof (H MIconUri) as Hi.
  pose proof (H MProtocolUri) as Hp. pose proof (H MToolTip) as Ht.
  pose proof (H MInputId) as Hn. pose proof (H MUseContextMenuPlacement) as Hf.
  pose proof (H MButtonStyle) as Hs.
  cbn [same_member] in *.
  split; [apply Hc; discriminate |].
  unfold ButtonSpec.after_arguments, ButtonSpec.placement_attr,
    ButtonSpec.imageUri_attr, ButtonSpec.protocol_attr,
    ButtonSpec.inputId_attr, ButtonSpec.style_attr, ButtonSpec.toolTip_attr.
  rewrite Hi, Hp, Ht, Hn, Hf, Hs by discriminate. reflexivity.
Qed.

(** X6: the arguments can be read back from the element when no key holds
    [&] and no value holds [;]: two builders that agree on every member
    but the argument mapping and return the same [GetXml] hold the same
    pairs in the same order. *)
Theorem arguments_read_back (this : ref) (h1 h2 : Button.heap) :
  (forall f, f <> MArguments -> same_member f (h1 this) (h2 this)) ->
  delimiter_free (ArgMap.pairs (Button.m_arguments (h1 this))) = true ->
  delimiter_free (ArgMap.pairs (Button.m_arguments (h2 this))) = true ->
  result_of (Button.GetXml this) h1 = result_of (Button.GetXml this) h2 ->
  ArgMap.pairs (Button.m_arguments (h1 this))
  = ArgMap.pairs (Button.m_arguments (h2 this)).
Proof.
  intros Hsame Hd1 Hd2 H. unfold result_of in H.
  rewrite !GetXml_spec in H. cbn [fst] in H. rewrite !xml_of_layout in H.
  destruct (after_arguments_same _ _ Hsame) as [Hc Ha].
  unfold ButtonSpec.action_element, ButtonSpec.arguments_value in H.
  rewrite Hc, Ha in H.
  apply append_cancel_l, append_cancel_l, append_cancel_l in H.
  exact (arguments_injective _ _ _ Hd1 Hd2 H).
Qed.

Lemma arguments_read_back_witness :
  ArgMap.pairs
    (Button.m_arguments
       (Button.set_arguments [("a", "1"); ("b", "2")] (Button.initial "x")))
  = ArgMap.pairs
      (Button.m_arguments
         (Button.set_arguments [("a", "1"); ("b", "2")] (Button.initial "x"))).
Proof.
  apply (arguments_read_back 0
           (fun _ => Button.set_arguments [("a", "1"); ("b", "2")]
                       (Button.initial "x"))
           (fun _ => Button.set_arguments [("a", "1"); ("b", "2")]
                       (Button.initial "x"))).
  - intros f _. destruct f; reflexivity.
  - reflexivity.
  - reflexivity.
  - reflexivity.
Defined.

(** X7: without that condition the element does not determine the
    mapping: a single pair whose value is [v1;k2&v2] and the two pairs
    [(k1, v1)], [(k2, v2)] give the same [GetXml], for any strings and any
    other members. *)
Theorem arguments_ambiguous (this : ref) (h : Button.heap)
    (k1 v1 k2 v2 : hstring) :
  k1 <> k2 ->
  let one := Button.set_arguments [(k1, v1 ++ ";" ++ k2 ++ "&" ++ v2)] (h this) in
  let two := Button.set_arguments [(k1, v1); (k2, v2)] (h this) in
  result_of (Button.GetXml this) (upd h this one)
  = result_of (Button.GetXml this) (upd h this two)
  /\ Button.m_arguments one <> Button.m_arguments two
  /\ NoDup (ArgMap.keys (Button.m_arguments one))
  /\ NoDup (ArgMap.keys (Button.m_arguments two)).
Proof.
  intros Hne one two. unfold result_of. rewrite !GetXml_spec. cbn [fst].
  rewrite !upd_same, !xml_of_layout. repeat split.
  - unfold ButtonSpec.action_element, ButtonSpec.arguments_value. simpl.
    unfold ButtonSpec.argument, ArgMap.Key, ArgMap.Value. simpl.
    repeat (rewrite append_assoc; cbn [append]).
    rewrite ?append_empty_r. reflexivity.
  - simpl. discriminate.
  - simpl. repeat constructor. simpl. tauto.
  - simpl. repeat constructor; simpl; intuition congruence.
Qed.

Lemma arguments_ambiguous_witness :
  result_of (Button.GetXml 0)
    (upd (fun _ => Button.initial "x") 0
       (Button.set_arguments [("a", "1" ++ ";" ++ "b" ++ "&" ++ "2")]
          (Button.initial "x")))
  = result_of (Button.GetXml 0)
      (upd (fun _ => Button.initial "x") 0
         (Button.set_arguments [("a", "1"); ("b", "2")] (Button.initial "x"))).
Proof.
  apply (arguments_ambiguous 0 (fun _ => Button.initial "x") "a" "1" "b" "2").
  discriminate.
Defined.

(** X8: the strings are copied as they are, so one attribute can carry
    another: an input id that ends in [ hint-toolTip=t], with the tool tip
    left empty, gives the same [GetXml] as the input id and the tool tip
    [t] set apart, whenever the style is not Success. *)
Theorem inputId_carries_toolTip (this : ref) (h : Button.heap)
    (i t : hstring) :
  i <> EmptyString ->
  t <> EmptyString ->
  Button.m_buttonStyle (h this) <> Success ->
  result_of
    (r1 <- Button.SetInputId this (i ++ " hint-toolTip=" ++ t) ;;
     r2 <- Button.SetToolTip r1 EmptyString ;;
     Button.GetXml r2) h
  = result_of
      (r1 <- Button.SetInputId this i ;;
       r2 <- Button.SetToolTip r1 t ;;
       Button.GetXml r2) h.
Proof.
  intros Hi Ht Hs.
  unfold result_of, bind, Button.SetInputId, Button.SetToolTip, bind, assign,
    ret.
  rewrite !GetXml_spec. cbn [fst]. rewrite !upd_same, !xml_of_layout.
  unfold ButtonSpec.action_element, ButtonSpec.after_arguments,
    ButtonSpec.placement_attr, ButtonSpec.imageUri_attr,
    ButtonSpec.protocol_attr, ButtonSpec.inputId_attr, ButtonSpec.style_attr,
    ButtonSpec.toolTip_attr.
  cbn [Button.set_inputId Button.set_toolTip Button.m_content
       Button.m_arguments Button.m_iconUri Button.m_protocolUri
       Button.m_toolTip Button.m_inputId Button.m_useContextMenuPlacement
       Button.m_buttonStyle].
  destruct i as [|ci i]; [congruence |].
  destruct t as [|ct t]; [congruence |].
  destruct (Button.m_buttonStyle (h this)); [| congruence |];
    cbn [empty append]; rewrite ?append_assoc; reflexivity.
Qed.

Lemma inputId_carries_toolTip_witness :
  result_of
    (r1 <- Button.SetInputId 0 ("id" ++ " hint-toolTip=" ++ "tip") ;;
     r2 <- Button.SetToolTip r1 EmptyString ;;
     Button.GetXml r2) (fun _ => Button.initial "x")
  = result_of
      (r1 <- Button.SetInputId 0 "id" ;;
       r2 <- Button.SetToolTip r1 "tip" ;;
       Button.GetXml r2) (fun _ => Button.initial "x").
Proof.
  apply (inputId_carries_toolTip 0 (fun _ => Button.initial "x") "id" "tip");
    discriminate.
Defined.

(** ** A setter between two serialisations *)

Lemma restyle_between_spec (this : ref) (buttonStyle : ButtonStyle)
    (h : Button.heap) :
  restyle_between this buttonStyle h
  = ((Button.xml_of (h this),
      Button.xml_of (Button.set_buttonStyle buttonStyle (h this))),
     upd h this (Button.set_buttonStyle buttonStyle (h this))).
Proof.
  unfold restyle_between, bind, Button.SetButtonStyle, Button.GetXml, load,
    assign, bind, ret.
  now rewrite upd_same.
Qed.

Lemma xml_of_restyled (b : Button.t) (buttonStyle : ButtonStyle) :
  Button.xml_of (Button.set_buttonStyle buttonStyle b)
  = "<action content=" ++ Button.m_content b
      ++ " arguments=" ++ ButtonSpec.arguments_value (Button.m_arguments b)
      ++ ButtonSpec.placement_attr b
      ++ ButtonSpec.imageUri_attr b
      ++ ButtonSpec.protocol_attr b
      ++ ButtonSpec.inputId_attr b
      ++ match buttonStyle with
         | Success => Button.lit_success
         | Default | Critical => EmptyString
         end
      ++ ButtonSpec.toolTip_attr b
      ++ " />".
Proof.
  rewrite xml_of_layout. destruct buttonStyle; reflexivity.
Qed.

(** C6: [GetXml] is a pure read and locks nothing, yet the next [GetXml]
    does not show every new value.  On a builder whose style is Default,
    [SetButtonStyle(Critical)] after [GetXml] does assign the style, and
    the following [GetXml] returns the very string of the first call:
    the test for the critical attribute compares with Success again.
    [SetButtonStyle(Success)] in the same place is shown: the second
    string is longer by the length of [ hint-buttonStyle="success"]. *)
Theorem GetXml_after_SetButtonStyle_Critical (this : ref) (h : Button.heap) :
  Button.m_buttonStyle (h this) = Default ->
  store_after (Button.GetXml this) h = h
  /\ Button.m_buttonStyle (store_after (restyle_between this Critical) h this)
     = Critical
  /\ snd (result_of (restyle_between this Critical) h)
     = fst (result_of (restyle_between this Critical) h)
  /\ String.length (snd (result_of (restyle_between this Success) h))
     = String.length (fst (result_of (restyle_between this Success) h))
       + String.length Button.lit_success.
Proof.
  intros Hd. unfold result_of, store_after.
  rewrite !restyle_between_spec. cbn [fst snd]. rewrite upd_same.
  split; [reflexivity | split; [reflexivity | split]].
  - rewrite xml_of_restyled, xml_of_layout.
    unfold ButtonSpec.action_element, ButtonSpec.after_arguments,
      ButtonSpec.style_attr. now rewrite Hd.
  - rewrite xml_of_restyled, xml_of_layout.
    unfold ButtonSpec.action_element, ButtonSpec.after_arguments,
      ButtonSpec.style_attr. rewrite Hd, !length_append.
    cbn [String.length]. lia.
Qed.

Lemma GetXml_after_SetButtonStyle_Critical_witness :
  Button.m_buttonStyle
    (store_after (restyle_between 0 Critical) (fun _ => Button.initial "x") 0)
  = Critical
  /\ fst (result_of (restyle_between 0 Critical) (fun _ => Button.initial "x"))
     = "<action content=x arguments= />"
  /\ snd (result_of (restyle_between 0 Critical) (fun _ => Button.initial "x"))
     = "<action content=x arguments= />".
Proof.
  pose proof (GetXml_after_SetButtonStyle_Critical 0
                (fun _ => Button.initial "x") eq_refl) as (_ & Hf & Hx & _).
  split; [exact Hf | split; [reflexivity | exact Hx]].
Defined.
